(** * OpenDev-Studio: the file-tree synchronization engine

    A shallow embedding of [frontend/src/utils/fileHelpers.js] and of the
    state-handling parts of [frontend/src/App.jsx] (the live-channel
    [onmessage] handler, [fetchFileTree] and [fetchFileContent]), followed
    by the properties of the specification that concern them. *)

From Stdlib Require Import Ascii String.
From stdpp Require Import gmap strings list.

Open Scope string_scope.
Open Scope list_scope.

(* ===================================================================== *)
(** ** Tree nodes *)
(* ===================================================================== *)

(** [node.type] is compared against the two literals ['file'] and
    ['folder'] only. *)
Inductive NodeType := file | folder.

Global Instance NodeType_eq_dec : EqDecision NodeType.
Proof. solve_decision. Defined.

(** A node object.  A property that may be missing on the JS object is an
    [option]: [None] is [undefined].  An array is truthy even when empty,
    so [children = Some []] passes the test [if (node.children)]. *)
#[local] Unset Elimination Schemes.
Inductive Node := mkNode {
  id : string;
  name : string;
  type : NodeType;
  children : option (list Node);
  content : option string;
  isOpen : option bool
}.
#[local] Set Elimination Schemes.

(** [{ ...node, content: c }] *)
Definition with_content (node : Node) (c : option string) : Node :=
  mkNode (id node) (name node) (type node) (children node) c (isOpen node).

(** [{ ...node, children: ch }] *)
Definition with_children (node : Node) (ch : list Node) : Node :=
  mkNode (id node) (name node) (type node) (Some ch) (content node) (isOpen node).

(** [{ ...node, children: ch, isOpen: true }] *)
Definition with_children_open (node : Node) (ch : list Node) : Node :=
  mkNode (id node) (name node) (type node) (Some ch) (content node) (Some true).

(** [node.children || []] *)
Definition children_or_empty (node : Node) : list Node :=
  match children node with Some ch => ch | None => [] end.

(** Induction over nodes that reaches into the children array. *)
Section NodeInduction.
Variable P : Node → Prop.
Hypothesis Hleaf : ∀ i nm ty ct op, P (mkNode i nm ty None ct op).
Hypothesis Hinner : ∀ i nm ty ch ct op,
  Forall P ch → P (mkNode i nm ty (Some ch) ct op).

Fixpoint Node_forall_ind (node : Node) : P node :=
  match node with
  | mkNode i nm ty None ct op => Hleaf i nm ty ct op
  | mkNode i nm ty (Some ch) ct op =>
      Hinner i nm ty ch ct op
        ((fix go (l : list Node) : Forall P l :=
            match l with
            | [] => List.Forall_nil P
            | x :: r => List.Forall_cons P x r (Node_forall_ind x) (go r)
            end) ch)
  end.
End NodeInduction.

(** Every node of a tree, parents before children (depth-first preorder). *)
Fixpoint subtree (node : Node) : list Node :=
  node :: match children node with
          | Some ch => ch ≫= subtree
          | None => []
          end.

Definition nodes (tree : list Node) : list Node := tree ≫= subtree.

Definition ids (tree : list Node) : list string := id <$> nodes tree.

(** The nodes strictly below a node. *)
Definition descendants (node : Node) : list Node := nodes (children_or_empty node).

(* ===================================================================== *)
(** ** fileHelpers.js *)
(* ===================================================================== *)

(** *** updateFileContent *)

Fixpoint updateFileContent_node (fileId : string) (newContent : option string)
    (node : Node) : Node :=
  if decide (id node = fileId) then with_content node newContent
  else match children node with
       | Some ch => with_children node (updateFileContent_node fileId newContent <$> ch)
       | None => node
       end.

Definition updateFileContent (nodes : list Node) (fileId : string)
    (newContent : option string) : list Node :=
  updateFileContent_node fileId newContent <$> nodes.

(** *** findNodeById *)

(** The [for ... of] loop with its early [return]: the first element on
    which the body returns. *)
Fixpoint first_found {A B} (f : A → option B) (l : list A) : option B :=
  match l with
  | [] => None
  | x :: r => match f x with Some y => Some y | None => first_found f r end
  end.

Fixpoint findNodeById_node (fid : string) (node : Node) : option Node :=
  if decide (id node = fid) then Some node
  else match children node with
       | Some ch => first_found (findNodeById_node fid) ch
       | None => None
       end.

Definition findNodeById (nodes : list Node) (fid : string) : option Node :=
  first_found (findNodeById_node fid) nodes.

(** *** Strings and the string built-ins of the runtime

    A string is modelled by the bytes of its UTF-8 encoding; for a string
    of ASCII characters these are its characters.  One string occurs in
    another exactly when its encoding occurs in the other's, so
    [includes], written out below, searches the bytes.

    [String.prototype.toLowerCase] and [String.prototype.trim] belong to
    the JavaScript engine, not to this repository: they are parameters of
    the development, known only through what ECMAScript fixes for them on
    strings of ASCII characters, where [toLowerCase] maps ['A'..'Z'] to
    ['a'..'z'] and [trim] strips the characters 9-13 and 32 from both
    ends.  What they do to other characters (['É'] lowered to ['é'], a
    no-break space stripped by [trim]) is left to the parameter, and
    whatever is proved below holds for the engine's own functions. *)

Fixpoint ascii_only (s : string) : bool :=
  match s with
  | EmptyString => true
  | String c r => (nat_of_ascii c <? 128)%nat && ascii_only r
  end.

Definition lower_ascii (c : ascii) : ascii :=
  let n := nat_of_ascii c in
  if (65 <=? n)%nat && (n <=? 90)%nat then ascii_of_nat (n + 32) else c.

Fixpoint ascii_toLowerCase (s : string) : string :=
  match s with
  | EmptyString => EmptyString
  | String c r => String (lower_ascii c) (ascii_toLowerCase r)
  end.

(** The white space and line terminators of ECMAScript below 128. *)
Definition is_whitespace (c : ascii) : bool :=
  let n := nat_of_ascii c in
  ((9 <=? n)%nat && (n <=? 13)%nat) || (n =? 32)%nat.

Fixpoint ascii_trimStart (s : string) : string :=
  match s with
  | EmptyString => EmptyString
  | String c r => if is_whitespace c then ascii_trimStart r else s
  end.

Fixpoint ascii_trimEnd (s : string) : string :=
  match s with
  | EmptyString => EmptyString
  | String c r =>
      match ascii_trimEnd r with
      | EmptyString => if is_whitespace c then EmptyString else String c EmptyString
      | kept_tail => String c kept_tail
      end
  end.

Definition ascii_trim (s : string) : string := ascii_trimEnd (ascii_trimStart s).

Class StringBuiltins := {
  toLowerCase : string → string;
  trim : string → string;
  toLowerCase_on_ascii s :
    ascii_only s = true → toLowerCase s = ascii_toLowerCase s;
  trim_on_ascii s :
    ascii_only s = true → trim s = ascii_trim s
}.

(** The built-ins cut down to ASCII: the instance on which the definitions
    are run on the sample data below, whose strings are all ASCII. *)
Definition ascii_builtins : StringBuiltins :=
  {| toLowerCase := ascii_toLowerCase;
     trim := ascii_trim;
     toLowerCase_on_ascii := λ _ _, eq_refl;
     trim_on_ascii := λ _ _, eq_refl |}.

(** [s.includes(t)]: [t] occurs in [s] at some position. *)
Fixpoint includes (s t : string) : bool :=
  String.prefix t s ||
  match s with
  | EmptyString => false
  | String _ r => includes r t
  end.

(** *** filterNodes *)

(** [node.name.toLowerCase().includes(term.toLowerCase())] *)
Definition name_matches `{StringBuiltins} (term : string) (node : Node) : bool :=
  includes (toLowerCase (name node)) (toLowerCase term).

(** The callback given to [reduce]; [acc.push(x)] is [acc ++ [x]]. *)
Fixpoint filterNodes_step `{StringBuiltins} (term : string) (acc : list Node)
    (node : Node) {struct node} : list Node :=
  match type node with
  | file => if name_matches term node then acc ++ [node] else acc
  | folder =>
      let filteredChildren :=
        match children node with
        | Some ch => foldl (filterNodes_step term) [] ch
        | None => []       (* filterNodes([], term) *)
        end in
      if (0 <? length filteredChildren)%nat || name_matches term node
      then acc ++ [with_children_open node filteredChildren]
      else acc
  end.

Definition filterNodes `{StringBuiltins} (nodes : list Node) (term : string)
    : list Node :=
  foldl (filterNodes_step term) [] nodes.

(** *** mergeTreeContent *)

(** [contentMap] is only probed with [has]/[get], never iterated: a finite
    map from ids to the content strings. *)
Fixpoint traverseOld_node (contentMap : gmap string string) (node : Node)
    {struct node} : gmap string string :=
  let contentMap1 :=
    match type node, content node with
    | file, Some c => <[id node := c]> contentMap
    | _, _ => contentMap
    end in
  match children node with
  | Some ch => foldl traverseOld_node contentMap1 ch
  | None => contentMap1
  end.

Definition traverseOld (contentMap : gmap string string) (nodes : list Node)
    : gmap string string :=
  foldl traverseOld_node contentMap nodes.

Fixpoint applyContent_node (contentMap : gmap string string) (node : Node) : Node :=
  let newNode :=
    match contentMap !! id node with
    | Some c => with_content node (Some c)
    | None => node
    end in
  match children node with           (* newNode.children is node.children *)
  | Some ch => with_children newNode (applyContent_node contentMap <$> ch)
  | None => newNode
  end.

Definition applyContent (contentMap : gmap string string) (nodes : list Node)
    : list Node :=
  applyContent_node contentMap <$> nodes.

Definition mergeTreeContent (oldNodes newNodes : list Node) : list Node :=
  applyContent (traverseOld ∅ oldNodes) newNodes.

(** *** flattenFiles

    The result is iterated by [fetchFileTree] with [for ... of], so the
    order of the entries is observable.  A JS [Map] iterates in the order
    in which the keys were first inserted; [set] on a key that is already
    present replaces the value and keeps the key's position. *)
Module JsMap.
Definition t (V : Type) := list (string * V).

Definition empty {V} : t V := [].

Fixpoint set {V} (m : t V) (k : string) (v : V) : t V :=
  match m with
  | [] => [(k, v)]
  | (k', v') :: r =>
      if decide (k' = k) then (k', v) :: r else (k', v') :: set r k v
  end.

Fixpoint get {V} (m : t V) (k : string) : option V :=
  match m with
  | [] => None
  | (k', v') :: r => if decide (k' = k) then Some v' else get r k
  end.

Definition has {V} (m : t V) (k : string) : bool :=
  match get m k with Some _ => true | None => false end.

Definition keys {V} (m : t V) : list string := m.*1.
End JsMap.

Fixpoint flattenFiles_node (map : JsMap.t Node) (node : Node) {struct node}
    : JsMap.t Node :=
  let map1 :=
    match type node with
    | file => JsMap.set map (id node) node
    | folder => map
    end in
  match children node with
  | Some ch => foldl flattenFiles_node map1 ch
  | None => map1
  end.

Definition flattenFiles (nodes : list Node) (map : JsMap.t Node) : JsMap.t Node :=
  foldl flattenFiles_node map nodes.

(* ===================================================================== *)
(** ** App.jsx: state, live-channel handler, refresh protocol *)
(* ===================================================================== *)

(** The pending save [{ id, content }] held by [fileToSaveRef]. *)
Record SaveData := mkSaveData { save_id : string; save_content : string }.

(** A chat message [{ id, role, text, isStreaming }].  [isStreaming] is
    either absent or [true] in every object the program builds; absent is
    [false] here, as the handler only tests its truthiness. *)
Record Message := mkMessage {
  msg_id : Z;
  role : string;
  text : string;
  isStreaming : bool
}.

(** A parsed inbound frame: [data.type], [data.event], [data.text]. *)
Record WsData := mkWsData {
  data_type : string;
  data_event : option string;
  data_text : option string
}.

(** The state cells the handlers read and write.  The refs
    ([openFilesRef], [activeFileIdRef]) mirror their state cell and are
    not kept apart; [fileToSaveRef] is the ref itself, which is what the
    handlers consult. *)
Record AppState := mkAppState {
  files : list Node;
  openFiles : list string;
  activeFileId : option string;
  fileToSaveRef : option SaveData;
  messages : list Message;
  isProcessing : bool
}.

Definition setFiles (st : AppState) (f : list Node) : AppState :=
  mkAppState f (openFiles st) (activeFileId st) (fileToSaveRef st)
             (messages st) (isProcessing st).

Definition setOpenFiles (st : AppState) (o : list string) : AppState :=
  mkAppState (files st) o (activeFileId st) (fileToSaveRef st)
             (messages st) (isProcessing st).

Definition setActiveFileId (st : AppState) (a : option string) : AppState :=
  mkAppState (files st) (openFiles st) a (fileToSaveRef st)
             (messages st) (isProcessing st).

Definition setMessages (st : AppState) (m : list Message) : AppState :=
  mkAppState (files st) (openFiles st) (activeFileId st) (fileToSaveRef st)
             m (isProcessing st).

Definition setIsProcessing (st : AppState) (b : bool) : AppState :=
  mkAppState (files st) (openFiles st) (activeFileId st) (fileToSaveRef st)
             (messages st) b.

(** Backend requests started by a handler, in the order they are started. *)
Inductive Call :=
  | FetchFileTree
  | FetchFileContent (fileId : string).

Global Instance Call_eq_dec : EqDecision Call.
Proof. solve_decision. Defined.

(** What a handler run ends in: the new state and the requests it
    started, or a [TypeError] raised on the way, which leaves the state as
    it was. *)
Inductive Outcome :=
  | Handled (st : AppState) (calls : list Call)
  | Threw.

(** [String(data.text || '')]: the text, or the empty string when the
    frame carries none. *)
Definition text_of (t : option string) : string := default EmptyString t.

(** The updater passed to [setMessages] for an [agent_chunk] frame.
    [prev[prev.length - 1]] is [undefined] on an empty array, and reading
    [.role] of it throws. *)
Definition agent_chunk_update (now : Z) (data : WsData) (prev : list Message)
    : option (list Message) :=
  match last prev with
  | None => None
  | Some lastMsg =>
      let newText := text_of (data_text data) in
      if bool_decide (role lastMsg = "agent") && isStreaming lastMsg
      then Some (take (length prev - 1) prev ++
                 [mkMessage (msg_id lastMsg) (role lastMsg)
                            (text lastMsg +:+ newText) (isStreaming lastMsg)])
      else Some (prev ++ [mkMessage now "agent" newText true])
  end.

(** The updater for [agent_response] and [agent_error]. *)
Definition agent_final_update (now : Z) (data : WsData) (prev : list Message)
    : list Message :=
  prev ++ [mkMessage now "agent" (text_of (data_text data)) false].

(** [filesToRefresh.forEach(id => { if (id !== editingId) fetchFileContent(id) })] *)
Definition refresh_open_files (filesToRefresh : list string)
    (editingId : option string) : list Call :=
  foldl (λ calls fid, if bool_decide (Some fid ≠ editingId)
                      then calls ++ [FetchFileContent fid] else calls)
        [] filesToRefresh.

(** [wsRef.current.onmessage], on an already parsed frame; [now] is the
    value of [Date.now()]. *)
Definition onmessage (now : Z) (data : WsData) (st : AppState) : Outcome :=
  if bool_decide (data_type data = "system_event") &&
     bool_decide (data_event data = Some "file_change")
  then
    let filesToRefresh := openFiles st in
    let editingId := save_id <$> fileToSaveRef st in
    Handled st (FetchFileTree :: refresh_open_files filesToRefresh editingId)
  else if bool_decide (data_type data ∈ ["agent_response"; "agent_chunk"; "agent_error"])
  then
    if bool_decide (data_type data = "agent_chunk")
    then match agent_chunk_update now data (messages st) with
         | Some msgs => Handled (setMessages st msgs) []
         | None => Threw
         end
    else Handled (setIsProcessing
                    (setMessages st (agent_final_update now data (messages st)))
                    false) []
  else Handled st [].

(** *** fetchFileTree *)

(** Callbacks handed to [setTimeout(..., 0)], with what they close over. *)
Inductive Timer :=
  | OpenNewFiles (newFileIds : list string)
  | RefetchActive (activeId : string).

(** The [for (const [id, node] of newMap)] loop. *)
Definition collect_newFileIds (prevMap newMap : JsMap.t Node) : list string :=
  foldl (λ newFileIds entry,
           if negb (JsMap.has prevMap entry.1) && bool_decide (type entry.2 = file)
           then newFileIds ++ [entry.1] else newFileIds)
        [] newMap.

(** The updater passed to [setFiles]: the merged tree it returns and the
    timers it arms on the way. *)
Definition refresh_update (st : AppState) (newTree : list Node)
    : list Node * list Timer :=
  let prevFiles := files st in
  let prevMap := flattenFiles prevFiles JsMap.empty in
  let newMap := flattenFiles newTree JsMap.empty in
  let timers :=
    if (0 <? length prevFiles)%nat then
      let newFileIds := collect_newFileIds prevMap newMap in
      if (0 <? length newFileIds)%nat then [OpenNewFiles newFileIds] else []
    else
      match activeFileId st with
      | Some activeId =>
          if negb (bool_decide (activeId = EmptyString)) &&
             negb (bool_decide (is_Some (fileToSaveRef st))) &&
             JsMap.has newMap activeId
          then [RefetchActive activeId] else []
      | None => []
      end in
  (mergeTreeContent prevFiles newTree, timers).

(** The body of [GET /files]: a tree, or something that fails the test
    [newTree && !newTree.error]. *)
Inductive TreeResponse :=
  | TreeShape (newTree : list Node)
  | TreeRejected.

Definition fetchFileTree_resolve (resp : TreeResponse) (st : AppState)
    : AppState * list Timer :=
  match resp with
  | TreeShape newTree =>
      let '(merged, timers) := refresh_update st newTree in
      (setFiles st merged, timers)
  | TreeRejected => (st, [])
  end.

(** The updater passed to [setOpenFiles] inside the timer. *)
Definition open_new_files (newFileIds prev : list string) : list string :=
  foldl (λ updated fid,
           if bool_decide (fid ∈ updated) then updated else updated ++ [fid])
        prev newFileIds.

(** Running a timer callback on the state current at that time. *)
Definition run_timer (t : Timer) (st : AppState) : AppState * list Call :=
  match t with
  | OpenNewFiles newFileIds =>
      let st1 := setOpenFiles st (open_new_files newFileIds (openFiles st)) in
      match last newFileIds with
      | Some lastNewId =>
          (setActiveFileId st1 (Some lastNewId), [FetchFileContent lastNewId])
      | None =>
          (* not reached: the timer is armed only when newFileIds.length > 0 *)
          (setActiveFileId st1 None, [])
      end
  | RefetchActive activeId => (st, [FetchFileContent activeId])
  end.

(** *** fetchFileContent *)

Fixpoint updateNodeContent_node (fileId : string) (data_content : string)
    (node : Node) : Node :=
  if decide (id node = fileId) then with_content node (Some data_content)
  else match children node with
       | Some ch => with_children node (updateNodeContent_node fileId data_content <$> ch)
       | None => node
       end.

Definition updateNodeContent (fileId : string) (data_content : string)
    (nodes : list Node) : list Node :=
  updateNodeContent_node fileId data_content <$> nodes.

(** The continuation of [GET /files/content]; [data_content] is
    [data.content], [None] when it is [undefined]. *)
Definition fetchFileContent_resolve (fileId : string) (data_content : option string)
    (st : AppState) : AppState :=
  match data_content with
  | Some c => setFiles st (updateNodeContent fileId c (files st))
  | None => st
  end.

(* ===================================================================== *)
(** ** The data-model invariants *)
(* ===================================================================== *)

(** A [file] node never has [children]; a [folder] node never has
    [content]. *)
Definition node_ok (node : Node) : Prop :=
  match type node with
  | file => children node = None
  | folder => content node = None
  end.

Definition tree_ok (tree : list Node) : Prop := Forall node_ok (nodes tree).

(** No two nodes of a tree share an id. *)
Definition unique_ids (tree : list Node) : Prop := NoDup (ids tree).

(** The shape of a tree: everything but the [content] fields. *)
Fixpoint shape_node (node : Node) : Node :=
  mkNode (id node) (name node) (type node)
         match children node with
         | Some ch => Some (shape_node <$> ch)
         | None => None
         end
         None (isOpen node).

Definition shape (tree : list Node) : list Node := shape_node <$> tree.

(** [node'] stands where [node] stood and differs from it at most in its
    content and in what its children hold. *)
Definition same_but_content (node node' : Node) : Prop :=
  id node' = id node ∧ name node' = name node ∧ type node' = type node ∧
  isOpen node' = isOpen node ∧ (children node' = None ↔ children node = None).

(* ===================================================================== *)
(** ** The walks, one node at a time *)
(* ===================================================================== *)

(** What [traverseOld] does at one node. *)
Definition record_content (contentMap : gmap string string) (node : Node)
    : gmap string string :=
  match type node, content node with
  | file, Some c => <[id node := c]> contentMap
  | _, _ => contentMap
  end.

(** What [flattenFiles] does at one node. *)
Definition index_file (map : JsMap.t Node) (node : Node) : JsMap.t Node :=
  match type node with
  | file => JsMap.set map (id node) node
  | folder => map
  end.

(* ===================================================================== *)
(** ** The operations in the words of the specification *)
(* ===================================================================== *)

(** A file is kept by the search when its name contains the term; a
    folder is kept when its name contains the term or some node below it
    has a name that does. *)
Definition kept `{StringBuiltins} (term : string) (node : Node) : bool :=
  match type node with
  | file => name_matches term node
  | folder => name_matches term node
              || existsb (name_matches term) (descendants node)
  end.

(** A kept file is returned as it is; a kept folder is returned expanded,
    with the filtered children. *)
Definition restricted `{StringBuiltins} (term : string) (node : Node) : Node :=
  match type node with
  | file => node
  | folder => with_children_open node (filterNodes (children_or_empty node) term)
  end.

(** Every folder of the tree expanded; a folder without a [children]
    array gets an empty one. *)
Fixpoint expand_all (node : Node) : Node :=
  match type node with
  | file => node
  | folder =>
      with_children_open node
        match children node with
        | Some ch => expand_all <$> ch
        | None => []
        end
  end.

(** The new file ids: the ids of the new index that are absent from the
    old index, in the order of the new index. *)
Definition new_file_ids (prevFiles newTree : list Node) : list string :=
  filter (λ k, k ∉ JsMap.keys (flattenFiles prevFiles JsMap.empty))
         (JsMap.keys (flattenFiles newTree JsMap.empty)).

(* ===================================================================== *)
(** ** Sample trees and states *)
(* ===================================================================== *)

(** [[{id:"/a", type:"folder", children:[{id:"/a/x.js", type:"file"}]}]],
    the file loaded. *)
Definition file_x : Node :=
  mkNode "/a/x.js" "x.js" file None (Some "let x = 1") None.

Definition folder_a : Node :=
  mkNode "/a" "a" folder (Some [file_x]) None None.

Definition tree_a : list Node := [folder_a].

(** The shape the backend reports after [/a/y.js] was created. *)
Definition file_x_bare : Node := mkNode "/a/x.js" "x.js" file None None None.

Definition file_y_bare : Node := mkNode "/a/y.js" "y.js" file None None None.

Definition tree_a_grown : list Node :=
  [mkNode "/a" "a" folder (Some [file_x_bare; file_y_bare]) None None].

(** A closed folder with one file in it. *)
Definition tree_closed : list Node :=
  [mkNode "/a" "a" folder (Some [file_x_bare]) None (Some false)].

(** A path that was a loaded file and is reported as a folder next. *)
Definition tree_b_file : list Node :=
  [mkNode "/b" "b" file None (Some "old") None].

Definition tree_b_folder : list Node :=
  [mkNode "/b" "b" folder (Some []) None None].

(** The editor holds an unsaved edit of [/a/x.js]; [/a/y.js] is open in a
    second tab. *)
Definition state_editing : AppState :=
  mkAppState tree_a ["/a/x.js"; "/a/y.js"] (Some "/a/x.js")
    (Some (mkSaveData "/a/x.js" "let x = 2"))
    [mkMessage 1 "agent" "Welcome" false]
    false.

Definition file_change_frame : WsData :=
  mkWsData "system_event" (Some "file_change") None.

(** A chat in which the agent is answering. *)
Definition state_streaming : AppState :=
  mkAppState tree_a ["/a/x.js"] (Some "/a/x.js") None
    [mkMessage 1 "agent" "Welcome" false; mkMessage 5 "user" "hi" false;
     mkMessage 6 "agent" "He" true]
    true.

(** A chunk frame. *)
Definition chunk_frame : WsData := mkWsData "agent_chunk" None (Some "Hel").

(* ===================================================================== *)
(** ** App.jsx: the handlers of the explorer, the tabs and the chat *)
(* ===================================================================== *)

(** *** String helpers used by the handlers *)

(** [s.lastIndexOf(t)]: the greatest position at which [t] occurs in [s],
    counted from [pos] at the head of [s]; [-1] when there is none. *)
Fixpoint lastIndexOf_from (pos : Z) (s t : string) : Z :=
  match s with
  | EmptyString => if String.prefix t EmptyString then pos else (-1)%Z
  | String _ r =>
      let later := lastIndexOf_from (pos + 1) r t in
      if (0 <=? later)%Z then later
      else if String.prefix t s then pos else (-1)%Z
  end.

Definition lastIndexOf (s t : string) : Z := lastIndexOf_from 0 s t.

(** [s.substring(0, stop)]: a negative [stop] counts as [0], one past the
    end as the length. *)
Fixpoint string_take (n : nat) (s : string) : string :=
  match n, s with
  | O, _ => EmptyString
  | _, EmptyString => EmptyString
  | S n', String c r => String c (string_take n' r)
  end.

Definition substring_to (s : string) (stop : Z) : string :=
  string_take (Z.to_nat stop) s.

(** *** handleCreateItem *)

(** [const isWin = path.includes('\\'); const sep = isWin ? '\\' : '/';] *)
Definition separator_of (path : string) : string :=
  if includes path "\" then "\" else "/".

(** The folder the new item goes into: the selected folder itself, the
    part of a selected file's id before its last separator, or nothing. *)
Definition create_basePath (files : list Node) (selectedId : option string) : string :=
  match selectedId with
  | Some sel =>
      if bool_decide (sel = EmptyString) then EmptyString
      else match findNodeById files sel with
           | Some node =>
               match type node with
               | folder => id node
               | file =>
                   let sep := separator_of (id node) in
                   substring_to (id node) (lastIndexOf (id node) sep)
               end
           | None => EmptyString
           end
  | None => EmptyString
  end.

Definition create_fullPath (basePath newItemName : string) : string :=
  if bool_decide (basePath = EmptyString) then newItemName
  else basePath +:+ separator_of basePath +:+ newItemName.

(** The body of [POST /files/create], or [None] when the handler returns
    before the request because the name is blank. *)
Definition handleCreateItem `{StringBuiltins} (files : list Node)
    (selectedId : option string) (newItemName : string) (newItemType : NodeType)
    : option (string * NodeType) :=
  if bool_decide (trim newItemName = EmptyString) then None
  else Some (create_fullPath (create_basePath files selectedId) newItemName,
             newItemType).

(** *** handleNodeSelect, handleCloseFile, tab clicks, handleDeleteItem *)

(** The handler also records [node.id] in [selectedId], a cell that no
    function modelled here reads back from the state. *)
Definition handleNodeSelect (node : Node) (st : AppState) : AppState * list Call :=
  match type node with
  | file =>
      let st1 := if bool_decide (id node ∈ openFiles st) then st
                 else setOpenFiles st (openFiles st ++ [id node]) in
      (setActiveFileId st1 (Some (id node)), [FetchFileContent (id node)])
  | folder => (st, [])
  end.

Definition handleCloseFile (fileId : string) (st : AppState) : AppState :=
  let newOpenFiles := filter (λ fid, fid ≠ fileId) (openFiles st) in
  let st1 := setOpenFiles st newOpenFiles in
  if bool_decide (activeFileId st = Some fileId)
  then setActiveFileId st1 (last newOpenFiles)
  else st1.

(** What [handleDeleteItem] does to the tabs once [POST /files/delete]
    has come back.  The two tests read [openFiles] and [activeFileId] as
    the handler closed over them when it was called ([called]); the
    updater of [setOpenFiles] works on the tabs as they are by then
    ([st]). *)
Definition close_deleted (selectedId : string) (called st : AppState) : AppState :=
  if bool_decide (selectedId ∈ openFiles called) then
    let st1 := setOpenFiles st (filter (λ fid, fid ≠ selectedId) (openFiles st)) in
    if bool_decide (activeFileId called = Some selectedId)
    then setActiveFileId st1 None else st1
  else st.

(** [confirmed] is the answer to [confirm(...)], [delivered] whether the
    request came back.  The result is the new state, the new [selectedId]
    and the paths posted to [/files/delete]. *)
Definition handleDeleteItem (selectedId : option string) (confirmed delivered : bool)
    (called st : AppState) : AppState * option string * list string :=
  match selectedId with
  | None => (st, selectedId, [])
  | Some sel =>
      if bool_decide (sel = EmptyString) then (st, selectedId, [])
      else if negb confirmed then (st, selectedId, [])
      else if negb delivered then (st, selectedId, [sel])
      else (close_deleted sel called st, None, [sel])
  end.

(** *** handleFileContentChange and the save *)

Definition setFileToSave (st : AppState) (s : option SaveData) : AppState :=
  mkAppState (files st) (openFiles st) (activeFileId st) s
             (messages st) (isProcessing st).

(** The optimistic update of the tree and [setFileToSave], followed by the
    effect that copies [fileToSave] into [fileToSaveRef]. *)
Definition handleFileContentChange (fileId newContent : string) (st : AppState)
    : AppState :=
  setFileToSave (setFiles st (updateFileContent (files st) fileId (Some newContent)))
                (Some (mkSaveData fileId newContent)).

(** [POST /files/save] settles: [.then] clears the ref, [.catch] only
    logs. *)
Definition save_settled (fulfilled : bool) (st : AppState) : AppState :=
  if fulfilled then setFileToSave st None else st.

(** *** handleStopResponse and handleChatSubmit *)

(** [wsOpen] is [wsRef.current && wsRef.current.readyState ===
    WebSocket.OPEN]. *)
Inductive Outbound :=
  | SendStop
  | SendChat (message : string).

Definition handleStopResponse (now : Z) (wsOpen : bool) (st : AppState)
    : AppState * list Outbound :=
  if wsOpen
  then (setMessages (setIsProcessing st false)
          (messages st ++ [mkMessage now "agent" "Stopping..." false]),
        [SendStop])
  else (st, []).

(** [now] and [nowError] are the two readings of [Date.now()]. *)
Definition handleChatSubmit `{StringBuiltins} (now nowError : Z) (inputText : string)
    (wsOpen : bool) (st : AppState) : AppState * list Outbound :=
  if bool_decide (trim inputText = EmptyString) then (st, [])
  else
    let userMsg := mkMessage now "user" inputText false in
    let st1 := setIsProcessing (setMessages st (messages st ++ [userMsg])) true in
    if wsOpen then (st1, [SendChat inputText])
    else (setIsProcessing
            (setMessages st1
               (messages st1 ++
                [mkMessage nowError "agent" "Error: WebSocket not connected." false]))
            false,
          []).

(** *** The states the handlers can produce *)

(** [useState] initial values; [welcome] is [INITIAL_MESSAGE]. *)
Definition initial_state (welcome : string) : AppState :=
  mkAppState [] [] None None [mkMessage 1 "agent" welcome false] false.

(** One constructor per handler or continuation.  A tab can be clicked
    only if it is drawn, and tabs are drawn from [openFiles]; a timer that
    fires was armed by some refresh; a delete comes back in a state that
    need not be the one it was called in. *)
Inductive reachable `{StringBuiltins} (welcome : string) : AppState → Prop :=
  | reach_initial : reachable welcome (initial_state welcome)
  | reach_onmessage st now data st' calls :
      reachable welcome st → onmessage now data st = Handled st' calls →
      reachable welcome st'
  | reach_tree st resp :
      reachable welcome st → reachable welcome (fetchFileTree_resolve resp st).1
  | reach_timer st0 resp t st :
      reachable welcome st0 → t ∈ (fetchFileTree_resolve resp st0).2 →
      reachable welcome st → reachable welcome (run_timer t st).1
  | reach_content st fileId data_content :
      reachable welcome st →
      reachable welcome (fetchFileContent_resolve fileId data_content st)
  | reach_select st node :
      reachable welcome st → reachable welcome (handleNodeSelect node st).1
  | reach_tab st fileId :
      reachable welcome st → fileId ∈ openFiles st →
      reachable welcome (setActiveFileId st (Some fileId))
  | reach_close st fileId :
      reachable welcome st → reachable welcome (handleCloseFile fileId st)
  | reach_delete called st selectedId confirmed delivered :
      reachable welcome called → reachable welcome st →
      reachable welcome (handleDeleteItem selectedId confirmed delivered called st).1.1
  | reach_edit st fileId newContent :
      reachable welcome st →
      reachable welcome (handleFileContentChange fileId newContent st)
  | reach_saved st fulfilled :
      reachable welcome st → reachable welcome (save_settled fulfilled st)
  | reach_stop st now wsOpen :
      reachable welcome st → reachable welcome (handleStopResponse now wsOpen st).1
  | reach_submit st now nowError inputText wsOpen :
      reachable welcome st →
      reachable welcome (handleChatSubmit now nowError inputText wsOpen st).1.

(** Handling a run of inbound frames, one after the other. *)
Fixpoint onmessages (frames : list (Z * WsData)) (st : AppState) : Outcome :=
  match frames with
  | [] => Handled st []
  | (now, data) :: rest =>
      match onmessage now data st with
      | Handled st' calls =>
          match onmessages rest st' with
          | Handled st'' calls' => Handled st'' (calls ++ calls')
          | Threw => Threw
          end
      | Threw => Threw
      end
  end.

(* ===================================================================== *)
(** ** FileTreeItem.jsx: revealing the selected node *)
(* ===================================================================== *)

(** [selectedId] is [null] or a string; [node.id === selectedId]. *)
Fixpoint hasSelectedChild (selectedId : option string) (node : Node) : bool :=
  if bool_decide (Some (id node) = selectedId) then true
  else match children node with
       | Some ch => existsb (hasSelectedChild selectedId) ch
       | None => false
       end.

(** Whether the effect on [[selectedId, item]] calls [setIsOpen(true)]. *)
Definition reveals_selection (selectedId : option string) (item : Node) : bool :=
  match children item with
  | None => false
  | Some _ =>
      hasSelectedChild selectedId item
      && negb (bool_decide (Some (id item) = selectedId))
  end.

(** The texts of a run of frames, joined in order of arrival. *)
Definition chunks_text (frames : list (Z * WsData)) : string :=
  foldr (λ frame acc, text_of (data_text frame.2) +:+ acc) EmptyString frames.

(** No file has two tabs, and the active file has a tab. *)
Definition tabs_ok (st : AppState) : Prop :=
  NoDup (openFiles st) ∧ ∀ a, activeFileId st = Some a → a ∈ openFiles st.

(** Every character of the string is one of the white-space characters
    9-13 and 32. *)
Fixpoint all_whitespace (s : string) : bool :=
  match s with
  | EmptyString => true
  | String c r => is_whitespace c && all_whitespace r
  end.

(* ===================================================================== *)
(** ** icons.jsx: getFileIcon *)
(* ===================================================================== *)

(** [s.split(sep)] for a one-character separator: never empty, one more
    piece than there are separators. *)
Fixpoint split_char (sep : ascii) (s : string) : list string :=
  match s with
  | EmptyString => [EmptyString]
  | String c r =>
      if bool_decide (c = sep) then EmptyString :: split_char sep r
      else match split_char sep r with
           | piece :: pieces => String c piece :: pieces
           | [] => [String c EmptyString]
           end
  end.

(** The icon component and its colour class. *)
Inductive IconShape := IconFile | IconFileCode | IconFileJson | IconFileText | IconFileImage.

Definition Icon : Type := IconShape * string.

Definition icon_of_extension (ext : string) : Icon :=
  if bool_decide (ext ∈ ["js"; "jsx"; "ts"; "tsx"]) then (IconFileCode, "text-yellow-400")
  else if bool_decide (ext ∈ ["html"; "htm"]) then (IconFileCode, "text-orange-500")
  else if bool_decide (ext ∈ ["css"; "scss"; "sass"]) then (IconFileCode, "text-blue-400")
  else if bool_decide (ext = "py") then (IconFileCode, "text-blue-300")
  else if bool_decide (ext = "json") then (IconFileJson, "text-yellow-200")
  else if bool_decide (ext = "md") then (IconFileText, "text-gray-400")
  else if bool_decide (ext ∈ ["png"; "jpg"; "svg"]) then (IconFileImage, "text-purple-400")
  else (IconFile, "text-gray-500").

Definition getFileIcon `{StringBuiltins} (filename : string) : Icon :=
  if bool_decide (filename = EmptyString) then (IconFile, "text-gray-500")
  else
    let ext := toLowerCase (default EmptyString (last (split_char "." filename))) in
    icon_of_extension ext.

(* ===================================================================== *)
(** ** More sample data *)
(* ===================================================================== *)

(** [/a] with two loaded files. *)
Definition file_y : Node :=
  mkNode "/a/y.js" "y.js" file None (Some "let y = 1") None.

Definition tree_a_loaded : list Node :=
  [mkNode "/a" "a" folder (Some [file_x; file_y]) None None].

Definition state_loaded : AppState :=
  mkAppState tree_a_loaded ["/a/x.js"; "/a/y.js"] (Some "/a/x.js") None
    [mkMessage 1 "agent" "Welcome" false; mkMessage 5 "user" "hi" false]
    true.

Definition chunk_frame_2 : WsData := mkWsData "agent_chunk" None (Some "lo").

(** A Windows file one level below the project root. *)
Definition tree_windows : list Node :=
  [mkNode "src\util\a.js" "a.js" file None None None;
   mkNode "README.md" "README.md" file None None None].

(** [/a/x.js] was opened and edited, and is still waiting to be saved; a
    refresh has then found [/a] empty. *)
Definition tree_a_bare : list Node :=
  [mkNode "/a" "a" folder (Some [file_x_bare]) None None].

Definition tree_a_emptied : list Node :=
  [mkNode "/a" "a" folder (Some []) None None].

Definition state_file_gone : AppState :=
  mkAppState tree_a_emptied ["/a/x.js"] (Some "/a/x.js")
    (Some (mkSaveData "/a/x.js" "let x = 2"))
    [mkMessage 1 "agent" "Welcome" false]
    false.
(* ===================================================================== *)
(** ** Traversal lemmas *)
(* ===================================================================== *)

Lemma nodes_nil : nodes [] = [].
Proof. reflexivity. Qed.

Lemma nodes_cons node tree : nodes (node :: tree) = subtree node ++ nodes tree.
Proof. reflexivity. Qed.

Lemma nodes_app t1 t2 : nodes (t1 ++ t2) = nodes t1 ++ nodes t2.
Proof. unfold nodes. apply bind_app. Qed.

Lemma subtree_unfold node :
  subtree node = node :: nodes (children_or_empty node).
Proof. destruct node as [i nm ty [ch|] ct op]; reflexivity. Qed.

Lemma subtree_self node : node ∈ subtree node.
Proof. rewrite subtree_unfold. left. Qed.

Lemma elem_of_nodes node tree :
  node ∈ nodes tree ↔ ∃ root, root ∈ tree ∧ node ∈ subtree root.
Proof. unfold nodes. rewrite list_elem_of_bind. split; intros (root & ? & ?); eauto. Qed.

Lemma roots_in_nodes node tree : node ∈ tree → node ∈ nodes tree.
Proof. intros H. apply elem_of_nodes. exists node. split; [done | apply subtree_self]. Qed.

(** A state-passing walk that visits a node and then its children is a
    left fold over the preorder listing. *)
Section Walk.
Context {St : Type} (visit : St → Node → St).
Variable walk : St → Node → St.
Hypothesis walk_unfold : ∀ s node,
  walk s node = foldl walk (visit s node) (children_or_empty node).

Lemma walk_subtree node : ∀ s, walk s node = foldl visit s (subtree node).
Proof.
  induction node as [i nm ty ct op | i nm ty ch ct op IH] using Node_forall_ind;
    intros s; rewrite walk_unfold, subtree_unfold; cbn [children_or_empty children foldl].
  - reflexivity.
  - generalize (visit s (mkNode i nm ty (Some ch) ct op)). clear s.
    induction IH as [| x r Hx _ IHr]; intros s; [reflexivity|].
    rewrite nodes_cons, foldl_app. cbn [foldl]. rewrite Hx. apply IHr.
Qed.

Lemma walk_nodes tree : ∀ s, foldl walk s tree = foldl visit s (nodes tree).
Proof.
  induction tree as [| x r IH]; intros s; [reflexivity|].
  rewrite nodes_cons, foldl_app. cbn [foldl]. rewrite walk_subtree. apply IH.
Qed.
End Walk.

(* ===================================================================== *)
(** ** findNodeById *)
(* ===================================================================== *)

Lemma first_found_Some {A B} (f : A → option B) l y :
  first_found f l = Some y → ∃ x, x ∈ l ∧ f x = Some y.
Proof.
  induction l as [| x r IH]; cbn; [done|].
  destruct (f x) as [y'|] eqn:E.
  - intros [= <-]. exists x. split; [left | done].
  - intros (x' & ? & ?)%IH. exists x'. split; [by right | done].
Qed.

Lemma first_found_None {A B} (f : A → option B) l :
  first_found f l = None ↔ ∀ x, x ∈ l → f x = None.
Proof.
  induction l as [| x r IH]; cbn.
  - split; [intros _ x H; by apply elem_of_nil in H | done].
  - destruct (f x) as [y|] eqn:E.
    + split; [done|]. intros H. specialize (H x (list_elem_of_here _ _)). congruence.
    + rewrite IH. split.
      * intros H x' [->|?]%elem_of_cons; auto.
      * intros H x' ?. apply H. by right.
Qed.

Lemma findNodeById_node_unfold fid node :
  findNodeById_node fid node =
    if decide (id node = fid) then Some node
    else findNodeById (children_or_empty node) fid.
Proof. destruct node as [i nm ty [ch|] ct op]; reflexivity. Qed.

Lemma findNodeById_node_Some fid node found :
  findNodeById_node fid node = Some found → found ∈ subtree node ∧ id found = fid.
Proof.
  revert found.
  induction node as [i nm ty ct op | i nm ty ch ct op IH] using Node_forall_ind;
    intros found; rewrite findNodeById_node_unfold, subtree_unfold;
    cbn [children_or_empty children]; case_decide as Hid.
  - intros [= <-]. split; [left | done].
  - done.
  - intros [= <-]. split; [left | done].
  - intros (x & Hx & Hf)%first_found_Some.
    rewrite Forall_forall in IH. destruct (IH x Hx found Hf) as [Hin ?].
    split; [| done]. right. apply elem_of_nodes. eauto.
Qed.

Lemma findNodeById_Some tree fid found :
  findNodeById tree fid = Some found → found ∈ nodes tree ∧ id found = fid.
Proof.
  intros (x & Hx & Hf)%first_found_Some.
  apply findNodeById_node_Some in Hf as [? ?]. split; [| done].
  apply elem_of_nodes. eauto.
Qed.

Lemma findNodeById_node_None fid node :
  findNodeById_node fid node = None ↔ fid ∉ id <$> subtree node.
Proof.
  induction node as [i nm ty ct op | i nm ty ch ct op IH] using Node_forall_ind;
    rewrite findNodeById_node_unfold, subtree_unfold;
    cbn [children_or_empty children]; rewrite fmap_cons, not_elem_of_cons;
    cbn [id]; case_decide as Hid.
  - split; [done | intros [? _]; congruence].
  - unfold findNodeById. cbn. split; [intros _; split; [congruence | apply not_elem_of_nil] | done].
  - split; [done | intros [? _]; congruence].
  - unfold findNodeById. rewrite first_found_None. split.
    + intros H. split; [congruence|].
      intros (n & -> & (root & Hr & Hn)%elem_of_nodes)%list_elem_of_fmap.
      rewrite Forall_forall in IH. apply (IH root Hr) in H; [| done].
      apply H. apply list_elem_of_fmap. eauto.
    + intros [_ H] x Hx. rewrite Forall_forall in IH. apply (IH x Hx).
      intros (n & -> & Hn)%list_elem_of_fmap. apply H.
      apply list_elem_of_fmap. exists n. split; [done|]. apply elem_of_nodes. eauto.
Qed.

Lemma findNodeById_None tree fid :
  findNodeById tree fid = None ↔ fid ∉ ids tree.
Proof.
  unfold findNodeById, ids. rewrite first_found_None. split.
  - intros H (n & -> & (root & Hr & Hn)%elem_of_nodes)%list_elem_of_fmap.
    specialize (H root Hr). apply findNodeById_node_None in H.
    apply H. apply list_elem_of_fmap. eauto.
  - intros H x Hx. apply findNodeById_node_None.
    intros (n & -> & Hn)%list_elem_of_fmap. apply H.
    apply list_elem_of_fmap. exists n. split; [done|]. apply elem_of_nodes. eauto.
Qed.

Lemma findNodeById_is_Some tree node :
  node ∈ nodes tree → is_Some (findNodeById tree (id node)).
Proof.
  intros Hn. destruct (findNodeById tree (id node)) eqn:E; [eauto|].
  apply findNodeById_None in E. exfalso. apply E.
  apply list_elem_of_fmap. eauto.
Qed.

(* ===================================================================== *)
(** ** mergeTreeContent *)
(* ===================================================================== *)

Lemma traverseOld_node_unfold contentMap node :
  traverseOld_node contentMap node =
    foldl traverseOld_node (record_content contentMap node) (children_or_empty node).
Proof. destruct node as [i nm ty [ch|] ct op]; reflexivity. Qed.

Lemma traverseOld_nodes contentMap tree :
  traverseOld contentMap tree = foldl record_content contentMap (nodes tree).
Proof. apply (walk_nodes record_content traverseOld_node traverseOld_node_unfold). Qed.

Lemma record_content_absent l : ∀ (m : gmap string string) k,
  k ∉ id <$> l → foldl record_content m l !! k = m !! k.
Proof.
  induction l as [| x r IH]; intros m k Hk; [done|].
  rewrite fmap_cons, not_elem_of_cons in Hk. destruct Hk as [Hx Hr].
  cbn [foldl]. rewrite IH by done. unfold record_content.
  destruct (type x), (content x); try done. by rewrite lookup_insert_ne.
Qed.

Lemma record_content_unique l f C : ∀ (m : gmap string string),
  NoDup (id <$> l) → f ∈ l → type f = file → content f = Some C →
  foldl record_content m l !! id f = Some C.
Proof.
  induction l as [| x r IH]; intros m Hnd Hf Hty Hc.
  - by apply elem_of_nil in Hf.
  - rewrite fmap_cons, NoDup_cons in Hnd. destruct Hnd as [Hx Hr].
    cbn [foldl]. apply elem_of_cons in Hf as [<- | Hf].
    + rewrite record_content_absent by done.
      unfold record_content. rewrite Hty, Hc. apply lookup_insert_eq.
    + by apply IH.
Qed.

Lemma record_content_origin l : ∀ (m : gmap string string) k c,
  foldl record_content m l !! k = Some c →
  m !! k = Some c ∨ ∃ f, f ∈ l ∧ type f = file ∧ id f = k ∧ content f = Some c.
Proof.
  induction l as [| x r IH]; intros m k c H; [by left|].
  cbn [foldl] in H. apply IH in H as [H | (f & ? & ?)].
  - unfold record_content in H.
    destruct (type x) eqn:Hty, (content x) as [cx|] eqn:Hc; try by left.
    destruct (decide (id x = k)) as [<- | Hne].
    + rewrite lookup_insert_eq in H. injection H as <-.
      right. exists x. repeat split; try done. left.
    + rewrite lookup_insert_ne in H by done. by left.
  - right. exists f. split; [by right | done].
Qed.

Lemma applyContent_node_unfold contentMap node :
  applyContent_node contentMap node =
    let newNode := match contentMap !! id node with
                   | Some c => with_content node (Some c)
                   | None => node
                   end in
    match children node with
    | Some ch => with_children newNode (applyContent contentMap ch)
    | None => newNode
    end.
Proof. destruct node as [i nm ty [ch|] ct op]; reflexivity. Qed.

Lemma applyContent_node_id contentMap node :
  id (applyContent_node contentMap node) = id node.
Proof.
  rewrite applyContent_node_unfold.
  destruct node as [i nm ty [ch|] ct op]; cbn; by destruct (contentMap !! i).
Qed.

Lemma applyContent_node_content contentMap node :
  content (applyContent_node contentMap node) =
    match contentMap !! id node with Some c => Some c | None => content node end.
Proof.
  rewrite applyContent_node_unfold.
  destruct node as [i nm ty [ch|] ct op]; cbn; by destruct (contentMap !! i).
Qed.

Lemma applyContent_node_type contentMap node :
  type (applyContent_node contentMap node) = type node.
Proof.
  rewrite applyContent_node_unfold.
  destruct node as [i nm ty [ch|] ct op]; cbn; by destruct (contentMap !! i).
Qed.

Lemma applyContent_node_children_None contentMap node :
  children (applyContent_node contentMap node) = None ↔ children node = None.
Proof.
  rewrite applyContent_node_unfold.
  destruct node as [i nm ty [ch|] ct op]; cbn; by destruct (contentMap !! i).
Qed.

Lemma subtree_applyContent contentMap node :
  subtree (applyContent_node contentMap node) =
    applyContent_node contentMap <$> subtree node.
Proof.
  induction node as [i nm ty ct op | i nm ty ch ct op IH] using Node_forall_ind.
  - cbn. by destruct (contentMap !! i).
  - rewrite (subtree_unfold (mkNode _ _ _ _ _ _)), fmap_cons.
    rewrite subtree_unfold. f_equal.
    replace (children_or_empty (applyContent_node contentMap (mkNode i nm ty (Some ch) ct op)))
      with (applyContent_node contentMap <$> ch)
      by (cbn; by destruct (contentMap !! i)).
    cbn [children_or_empty children].
    induction IH as [| x r Hx _ IHr]; [done|].
    rewrite fmap_cons, !nodes_cons, fmap_app. by rewrite Hx, IHr.
Qed.

Lemma nodes_applyContent contentMap tree :
  nodes (applyContent contentMap tree) = applyContent_node contentMap <$> nodes tree.
Proof.
  induction tree as [| x r IH]; [done|].
  unfold applyContent in *. rewrite fmap_cons, !nodes_cons, fmap_app.
  by rewrite subtree_applyContent, IH.
Qed.

Lemma shape_applyContent_node contentMap node :
  shape_node (applyContent_node contentMap node) = shape_node node.
Proof.
  induction node as [i nm ty ct op | i nm ty ch ct op IH] using Node_forall_ind.
  - cbn. by destruct (contentMap !! i).
  - assert (shape_node <$> (applyContent_node contentMap <$> ch) = shape_node <$> ch) as Hch.
    { induction IH as [| x r Hx _ IHr]; [done|]. rewrite !fmap_cons. by rewrite Hx, IHr. }
    cbn. destruct (contentMap !! i); cbn; by rewrite Hch.
Qed.

(** C10.  For every old tree and new tree, the merged tree has exactly the
    shape of the new tree: the same nodes in the same order and nesting,
    with the same id, name, type and isOpen; only content fields differ. *)
Theorem mergeTreeContent_keeps_shape (oldNodes newNodes : list Node) :
  shape (mergeTreeContent oldNodes newNodes) = shape newNodes.
Proof.
  unfold mergeTreeContent, applyContent, shape.
  induction newNodes as [| x r IH]; [done|].
  rewrite !fmap_cons. by rewrite shape_applyContent_node, IH.
Qed.

(** C1.  In a tree with unique ids, if a file node [f] holds content [C]
    and the new shape has a node with [f]'s id, then the merged tree has
    that node, [findNodeById] returns it, and every node of the merged
    tree with [f]'s id holds [C]. *)
Theorem mergeTreeContent_preserves_content
    (oldNodes newNodes : list Node) (f : Node) (C : string) :
  unique_ids oldNodes →
  f ∈ nodes oldNodes → type f = file → content f = Some C →
  id f ∈ ids newNodes →
  (∃ merged, findNodeById (mergeTreeContent oldNodes newNodes) (id f) = Some merged
             ∧ content merged = Some C)
  ∧ (∀ node, node ∈ nodes (mergeTreeContent oldNodes newNodes) →
             id node = id f → content node = Some C).
Proof.
  intros Hnd Hf Hty Hc Hnew.
  assert (traverseOld ∅ oldNodes !! id f = Some C) as Hmap.
  { rewrite traverseOld_nodes. by apply record_content_unique. }
  assert (∀ node, node ∈ nodes (mergeTreeContent oldNodes newNodes) →
                  id node = id f → content node = Some C) as Hall.
  { intros node Hn Hid. unfold mergeTreeContent in Hn.
    rewrite nodes_applyContent in Hn.
    apply list_elem_of_fmap in Hn as (n0 & -> & _).
    rewrite applyContent_node_id in Hid.
    rewrite applyContent_node_content, Hid. by rewrite Hmap. }
  split; [| done].
  destruct (findNodeById (mergeTreeContent oldNodes newNodes) (id f)) as [merged|] eqn:E.
  - exists merged. split; [done|].
    apply findNodeById_Some in E as [? ?]. by apply Hall.
  - exfalso. apply findNodeById_None in E. apply E.
    unfold ids, mergeTreeContent. rewrite nodes_applyContent, <- list_fmap_compose.
    unfold ids in Hnew. apply list_elem_of_fmap in Hnew as (n0 & Hid & Hn0).
    apply list_elem_of_fmap. exists n0. split; [| done].
    cbn. by rewrite applyContent_node_id.
Qed.

(* ===================================================================== *)
(** ** updateFileContent *)
(* ===================================================================== *)

Lemma updateFileContent_node_unfold fileId newContent node :
  updateFileContent_node fileId newContent node =
    if decide (id node = fileId) then with_content node newContent
    else match children node with
         | Some ch => with_children node (updateFileContent ch fileId newContent)
         | None => node
         end.
Proof. destruct node as [i nm ty [ch|] ct op]; reflexivity. Qed.

Lemma same_but_content_refl node : same_but_content node node.
Proof. by repeat split. Qed.

Lemma Forall2_same_refl {A} (R : A → A → Prop) (l : list A) :
  (∀ x, R x x) → Forall2 R l l.
Proof. intros HR. induction l; constructor; auto. Qed.

(** Every node of the updated tree stands for the node of the input at
    the same place of the preorder listing. *)
Lemma updateFileContent_node_related fileId newContent node :
  Forall2 (λ n n', same_but_content n n' ∧
                   (content n' = content n ∨ (id n = fileId ∧ content n' = newContent)))
          (subtree node) (subtree (updateFileContent_node fileId newContent node)).
Proof.
  induction node as [i nm ty ct op | i nm ty ch ct op IH] using Node_forall_ind;
    rewrite updateFileContent_node_unfold; cbn [id children]; case_decide as Hid.
  - cbn. constructor; [| constructor]. split; [by repeat split | by right].
  - apply Forall2_same_refl. intros x. split; [apply same_but_content_refl | by left].
  - rewrite !subtree_unfold. cbn [children_or_empty children with_content].
    constructor.
    + split; [by repeat split | by right].
    + apply Forall2_same_refl. intros x. split; [apply same_but_content_refl | by left].
  - rewrite !subtree_unfold. cbn [children_or_empty children with_children].
    constructor.
    + split; [by repeat split | by left].
    + unfold updateFileContent.
      induction IH as [| x r Hx _ IHr]; [constructor|].
      rewrite fmap_cons, !nodes_cons. by apply Forall2_app.
Qed.

Lemma updateFileContent_related tree fileId newContent :
  Forall2 (λ n n', same_but_content n n' ∧
                   (content n' = content n ∨ (id n = fileId ∧ content n' = newContent)))
          (nodes tree) (nodes (updateFileContent tree fileId newContent)).
Proof.
  unfold updateFileContent. induction tree as [| x r IH]; [constructor|].
  rewrite fmap_cons, !nodes_cons.
  apply Forall2_app; [apply updateFileContent_node_related | apply IH].
Qed.

Lemma first_found_fmap {A B} (f : A → option B) (g : A → A) (h : B → B) l :
  Forall (λ x, f (g x) = h <$> f x) l →
  first_found f (g <$> l) = h <$> first_found f l.
Proof.
  induction 1 as [| x r Hx _ IH]; [done|].
  rewrite fmap_cons. cbn [first_found]. rewrite Hx.
  destruct (f x); [done | apply IH].
Qed.

Lemma findNodeById_updateFileContent_node fileId newContent node :
  findNodeById_node fileId (updateFileContent_node fileId newContent node) =
    (λ found, with_content found newContent) <$> findNodeById_node fileId node.
Proof.
  induction node as [i nm ty ct op | i nm ty ch ct op IH] using Node_forall_ind;
    rewrite updateFileContent_node_unfold, (findNodeById_node_unfold _ (mkNode _ _ _ _ _ _));
    cbn [id children children_or_empty]; case_decide as Hid.
  - rewrite findNodeById_node_unfold. cbn [id with_content]. by rewrite decide_True.
  - rewrite findNodeById_node_unfold. cbn [id]. by rewrite decide_False.
  - rewrite findNodeById_node_unfold. cbn [id with_content]. by rewrite decide_True.
  - rewrite findNodeById_node_unfold. cbn [id with_children children children_or_empty].
    rewrite decide_False by done.
    unfold findNodeById, updateFileContent. by apply first_found_fmap.
Qed.

Lemma findNodeById_updateFileContent tree fileId newContent :
  findNodeById (updateFileContent tree fileId newContent) fileId =
    (λ found, with_content found newContent) <$> findNodeById tree fileId.
Proof.
  unfold findNodeById, updateFileContent. apply first_found_fmap.
  apply Forall_forall. intros x _. apply findNodeById_updateFileContent_node.
Qed.

Lemma updateFileContent_node_absent fileId newContent node :
  fileId ∉ id <$> subtree node →
  updateFileContent_node fileId newContent node = node.
Proof.
  induction node as [i nm ty ct op | i nm ty ch ct op IH] using Node_forall_ind;
    rewrite updateFileContent_node_unfold, subtree_unfold, fmap_cons, not_elem_of_cons;
    cbn [id children children_or_empty]; intros [Hne Hch]; rewrite decide_False by done.
  - done.
  - unfold with_children. cbn. do 2 f_equal.
    unfold updateFileContent. induction IH as [| x r Hx _ IHr]; [done|].
    rewrite nodes_cons, fmap_app, not_elem_of_app in Hch. destruct Hch as [H1 H2].
    rewrite fmap_cons. by rewrite Hx, IHr.
Qed.

Lemma updateFileContent_absent tree fileId newContent :
  fileId ∉ ids tree → updateFileContent tree fileId newContent = tree.
Proof.
  unfold ids, updateFileContent. induction tree as [| x r IH]; [done|].
  rewrite nodes_cons, fmap_app, not_elem_of_app. intros [H1 H2].
  rewrite fmap_cons. by rewrite updateFileContent_node_absent, IH.
Qed.

(** C7.  [updateFileContent] replaces the content of the node that
    [findNodeById] finds for the id; every node keeps its id, name, type
    and isOpen, and a node whose id differs keeps its content; when no node
    has the id, the result is the input tree. *)
Theorem updateFileContent_replaces_and_frames
    (tree : list Node) (fileId : string) (newContent : option string) :
  (∀ node, findNodeById tree fileId = Some node →
           findNodeById (updateFileContent tree fileId newContent) fileId
             = Some (with_content node newContent))
  ∧ Forall2 (λ n n', same_but_content n n' ∧ (id n ≠ fileId → content n' = content n))
            (nodes tree) (nodes (updateFileContent tree fileId newContent))
  ∧ (fileId ∉ ids tree → updateFileContent tree fileId newContent = tree).
Proof.
  split; [| split].
  - intros node H. by rewrite findNodeById_updateFileContent, H.
  - eapply Forall2_impl; [apply updateFileContent_related|].
    intros n n' [Hs Hc]. split; [done|]. intros Hne.
    destruct Hc as [Hc | [? _]]; [done | contradiction].
  - apply updateFileContent_absent.
Qed.

(** The updater inside [fetchFileContent] is [updateFileContent] again. *)
Lemma updateNodeContent_node_eq fileId c node :
  updateNodeContent_node fileId c node = updateFileContent_node fileId (Some c) node.
Proof.
  induction node as [i nm ty ct op | i nm ty ch ct op IH] using Node_forall_ind;
    [cbn; by case_decide|].
  assert (updateNodeContent_node fileId c <$> ch
          = updateFileContent_node fileId (Some c) <$> ch) as Hch.
  { induction IH as [| x r Hx _ IHr]; [done|].
    rewrite !fmap_cons. by rewrite Hx, IHr. }
  cbn [updateNodeContent_node updateFileContent_node id children].
  case_decide; [done|]. by rewrite Hch.
Qed.

Lemma updateNodeContent_eq fileId c tree :
  updateNodeContent fileId c tree = updateFileContent tree fileId (Some c).
Proof.
  unfold updateNodeContent, updateFileContent.
  induction tree as [| x r IH]; [done|].
  rewrite !fmap_cons. by rewrite updateNodeContent_node_eq, IH.
Qed.

(* ===================================================================== *)
(** ** The file/folder invariant under the tree operations *)
(* ===================================================================== *)

Lemma tree_ok_updateFileContent tree fileId newContent :
  tree_ok tree →
  (∀ node, node ∈ nodes tree → id node = fileId → type node = file) →
  tree_ok (updateFileContent tree fileId newContent).
Proof.
  unfold tree_ok. intros Hok Hfile.
  eapply Forall2_Forall_r; [apply updateFileContent_related|].
  apply Forall_forall. intros n Hn n' [(_ & _ & Hty & _ & Hch) Hc].
  rewrite Forall_forall in Hok. specialize (Hok n Hn).
  unfold node_ok in *. rewrite Hty.
  destruct (type n) eqn:E.
  - by apply Hch.
  - destruct Hc as [-> | [Hid _]]; [done|].
    specialize (Hfile n Hn Hid). congruence.
Qed.

Lemma tree_ok_mergeTreeContent oldNodes newNodes :
  tree_ok newNodes →
  (∀ node f, node ∈ nodes newNodes → type node = folder →
             f ∈ nodes oldNodes → type f = file → id f = id node →
             content f = None) →
  tree_ok (mergeTreeContent oldNodes newNodes).
Proof.
  unfold tree_ok, mergeTreeContent. intros Hok Hfolder.
  rewrite nodes_applyContent, Forall_fmap. apply Forall_forall. intros n Hn.
  rewrite Forall_forall in Hok. specialize (Hok n Hn).
  unfold node_ok, compose in *.
  rewrite applyContent_node_type, applyContent_node_content.
  destruct (type n) eqn:E.
  - by apply applyContent_node_children_None.
  - destruct (traverseOld ∅ oldNodes !! id n) as [c|] eqn:Hm; [| done].
    rewrite traverseOld_nodes in Hm.
    apply record_content_origin in Hm as [Hm | (f & Hf & Hty & Hid & Hc)].
    + by rewrite lookup_empty in Hm.
    + rewrite (Hfolder n f Hn E Hf Hty Hid) in Hc. done.
Qed.

(** C9, as the code has it.  On a tree that satisfies the file/folder
    invariant, [updateFileContent] and the re-fetch updater keep it when
    the id they are given does not name a folder of the tree, and
    [mergeTreeContent] keeps it when no folder of the new shape carries the
    id of an old file that holds content. *)
Theorem tree_ok_preserved_on_file_ids
    (oldNodes tree : list Node) (fileId : string)
    (newContent : option string) (fetched : string) :
  tree_ok tree →
  ((∀ node, node ∈ nodes tree → id node = fileId → type node = file) →
     tree_ok (updateFileContent tree fileId newContent)
     ∧ tree_ok (updateNodeContent fileId fetched tree))
  ∧ ((∀ node f, node ∈ nodes tree → type node = folder →
                f ∈ nodes oldNodes → type f = file → id f = id node →
                content f = None) →
     tree_ok (mergeTreeContent oldNodes tree)).
Proof.
  intros Hok. split.
  - intros Hfile. split.
    + by apply tree_ok_updateFileContent.
    + rewrite updateNodeContent_eq. by apply tree_ok_updateFileContent.
  - by apply tree_ok_mergeTreeContent.
Qed.

(** C9 fails as stated: each of the three operations turns a tree that
    satisfies the invariant into one with a folder that has content, when
    the id in play is that of a folder. *)
Lemma tree_ok_broken_on_folder_id :
  tree_ok tree_b_folder ∧ tree_ok tree_b_file
  ∧ ¬ tree_ok (updateFileContent tree_b_folder "/b" (Some "new"))
  ∧ ¬ tree_ok (updateNodeContent "/b" "new" tree_b_folder)
  ∧ ¬ tree_ok (mergeTreeContent tree_b_file tree_b_folder).
Proof.
  unfold tree_ok. repeat split.
  - repeat constructor.
  - repeat constructor.
  - intros H. apply Forall_cons in H as [H _]. discriminate H.
  - intros H. apply Forall_cons in H as [H _]. discriminate H.
  - intros H. apply Forall_cons in H as [H _]. discriminate H.
Qed.

(* ===================================================================== *)
(** ** The insertion-ordered map and flattenFiles *)
(* ===================================================================== *)

Lemma JsMap_keys_set {V} (m : JsMap.t V) k v k' :
  k' ∈ JsMap.keys (JsMap.set m k v) ↔ k' = k ∨ k' ∈ JsMap.keys m.
Proof.
  unfold JsMap.keys. induction m as [| [k0 v0] r IH]; cbn.
  - rewrite list_elem_of_singleton. split; [by left | intros [? | H]; [done | by apply elem_of_nil in H]].
  - case_decide as Hk; cbn; rewrite !elem_of_cons.
    + subst. tauto.
    + rewrite IH. tauto.
Qed.

Lemma JsMap_keys_set_NoDup {V} (m : JsMap.t V) k v :
  NoDup (JsMap.keys m) → NoDup (JsMap.keys (JsMap.set m k v)).
Proof.
  induction m as [| [k0 v0] r IH]; cbn.
  - intros _. apply NoDup_singleton.
  - rewrite NoDup_cons. intros [Hk0 Hr]. case_decide as Hk; cbn.
    + by apply NoDup_cons.
    + apply NoDup_cons. split; [| by apply IH].
      fold (JsMap.keys (JsMap.set r k v)). rewrite JsMap_keys_set.
      intros [? | ?]; [congruence | done].
Qed.

Lemma JsMap_get_set {V} (m : JsMap.t V) k v k' :
  JsMap.get (JsMap.set m k v) k' = if decide (k = k') then Some v else JsMap.get m k'.
Proof.
  induction m as [| [k0 v0] r IH]; cbn.
  - by repeat case_decide.
  - destruct (decide (k0 = k)) as [-> | Hk]; cbn.
    + by repeat case_decide.
    + rewrite IH. repeat case_decide; congruence.
Qed.

Lemma JsMap_get_None {V} (m : JsMap.t V) k :
  JsMap.get m k = None ↔ k ∉ JsMap.keys m.
Proof.
  unfold JsMap.keys. induction m as [| [k0 v0] r IH]; cbn.
  - split; [intros _; apply not_elem_of_nil | done].
  - rewrite not_elem_of_cons. case_decide; [| rewrite IH]; split; try done; intros []; congruence.
Qed.

Lemma JsMap_has_keys {V} (m : JsMap.t V) k :
  JsMap.has m k = true ↔ k ∈ JsMap.keys m.
Proof.
  unfold JsMap.has. destruct (JsMap.get m k) eqn:E.
  - split; [| done]. intros _. destruct (decide (k ∈ JsMap.keys m)) as [| Hn]; [done|].
    apply JsMap_get_None in Hn. congruence.
  - apply JsMap_get_None in E. split; [done | contradiction].
Qed.

Lemma JsMap_get_Some {V} (m : JsMap.t V) k v :
  JsMap.get m k = Some v → (k, v) ∈ m.
Proof.
  induction m as [| [k0 v0] r IH]; cbn; [done|].
  case_decide as Hk.
  - intros [= <-]. subst. left.
  - intros H. right. by apply IH.
Qed.

Lemma JsMap_elem_get {V} (m : JsMap.t V) k v :
  NoDup (JsMap.keys m) → (k, v) ∈ m → JsMap.get m k = Some v.
Proof.
  unfold JsMap.keys. induction m as [| [k0 v0] r IH]; cbn.
  - intros _ H. by apply elem_of_nil in H.
  - rewrite NoDup_cons. intros [Hk0 Hr] [[= -> ->] | Hin]%elem_of_cons.
    + by rewrite decide_True.
    + rewrite decide_False; [by apply IH|]. intros ->. apply Hk0.
      apply list_elem_of_fmap. by exists (k, v).
Qed.

Lemma flattenFiles_node_unfold map node :
  flattenFiles_node map node =
    foldl flattenFiles_node (index_file map node) (children_or_empty node).
Proof. destruct node as [i nm ty [ch|] ct op]; reflexivity. Qed.

(** One depth-first pass: the index is built by visiting the nodes in
    preorder. *)
Lemma flattenFiles_nodes tree map :
  flattenFiles tree map = foldl index_file map (nodes tree).
Proof. apply (walk_nodes index_file flattenFiles_node flattenFiles_node_unfold). Qed.

Lemma index_file_keys l : ∀ (m : JsMap.t Node) k,
  k ∈ JsMap.keys (foldl index_file m l) ↔
  k ∈ JsMap.keys m ∨ ∃ node, node ∈ l ∧ type node = file ∧ id node = k.
Proof.
  induction l as [| x r IH]; intros m k; cbn [foldl].
  - split; [by left | intros [? | (n & H & _)]; [done | by apply elem_of_nil in H]].
  - rewrite IH. unfold index_file. destruct (type x) eqn:Hty.
    + rewrite JsMap_keys_set. split.
      * intros [[-> | ?] | (n & ? & ?)].
        -- right. exists x. split; [left | done].
        -- by left.
        -- right. exists n. split; [by right | done].
      * intros [? | (n & [-> | ?]%elem_of_cons & Hf & Hid)].
        -- left. by right.
        -- left. by left.
        -- right. eauto.
    + split.
      * intros [? | (n & ? & ?)]; [by left|]. right. exists n. split; [by right | done].
      * intros [? | (n & [-> | ?]%elem_of_cons & Hf & Hid)]; [by left | congruence |].
        right. eauto.
Qed.

Lemma index_file_NoDup l : ∀ (m : JsMap.t Node),
  NoDup (JsMap.keys m) → NoDup (JsMap.keys (foldl index_file m l)).
Proof.
  induction l as [| x r IH]; intros m Hm; [done|].
  cbn [foldl]. apply IH. unfold index_file.
  destruct (type x); [by apply JsMap_keys_set_NoDup | done].
Qed.

Lemma index_file_get l : ∀ (m : JsMap.t Node) k node,
  JsMap.get (foldl index_file m l) k = Some node →
  JsMap.get m k = Some node ∨ (node ∈ l ∧ type node = file ∧ id node = k).
Proof.
  induction l as [| x r IH]; intros m k node H; [by left|].
  cbn [foldl] in H. apply IH in H as [H | (? & ? & ?)].
  - unfold index_file in H. destruct (type x) eqn:Hty; [| by left].
    rewrite JsMap_get_set in H. case_decide as Hk; [| by left].
    injection H as <-. right. split; [left | done].
  - right. split; [by right | done].
Qed.

Lemma index_file_get_absent l : ∀ (m : JsMap.t Node) k,
  k ∉ id <$> l → JsMap.get (foldl index_file m l) k = JsMap.get m k.
Proof.
  induction l as [| x r IH]; intros m k Hk; [done|].
  rewrite fmap_cons, not_elem_of_cons in Hk. destruct Hk as [Hx Hr].
  cbn [foldl]. rewrite IH by done. unfold index_file.
  destruct (type x); [| done]. rewrite JsMap_get_set. by rewrite decide_False.
Qed.

Lemma index_file_get_unique l node : ∀ (m : JsMap.t Node),
  NoDup (id <$> l) → node ∈ l → type node = file →
  JsMap.get (foldl index_file m l) (id node) = Some node.
Proof.
  induction l as [| x r IH]; intros m Hnd Hin Hty.
  - by apply elem_of_nil in Hin.
  - rewrite fmap_cons, NoDup_cons in Hnd. destruct Hnd as [Hx Hr].
    cbn [foldl]. apply elem_of_cons in Hin as [<- | Hin].
    + rewrite index_file_get_absent by done. unfold index_file. rewrite Hty.
      rewrite JsMap_get_set. by rewrite decide_True.
    + by apply IH.
Qed.

Lemma flattenFiles_get_file tree k node :
  JsMap.get (flattenFiles tree JsMap.empty) k = Some node →
  node ∈ nodes tree ∧ type node = file ∧ id node = k.
Proof.
  rewrite flattenFiles_nodes. intros [H | H]%index_file_get; [done | done].
Qed.

(** C4, as the code has it.  [flattenFiles] walks the tree once, depth
    first, and indexes the file nodes only: its keys are exactly the ids of
    the file nodes, each key once, every entry maps an id to a file node of
    the tree with that id, and with unique ids every file node is the entry
    of its own id. *)
Theorem flattenFiles_indexes_files (tree : list Node) :
  flattenFiles tree JsMap.empty = foldl index_file JsMap.empty (nodes tree)
  ∧ (∀ k, k ∈ JsMap.keys (flattenFiles tree JsMap.empty) ↔
          ∃ node, node ∈ nodes tree ∧ type node = file ∧ id node = k)
  ∧ NoDup (JsMap.keys (flattenFiles tree JsMap.empty))
  ∧ (∀ k node, JsMap.get (flattenFiles tree JsMap.empty) k = Some node →
               node ∈ nodes tree ∧ type node = file ∧ id node = k)
  ∧ (unique_ids tree → ∀ node, node ∈ nodes tree → type node = file →
       JsMap.get (flattenFiles tree JsMap.empty) (id node) = Some node).
Proof.
  rewrite flattenFiles_nodes. repeat split.
  - intros [H | H]%index_file_keys; [by apply elem_of_nil in H | done].
  - intros H. apply index_file_keys. by right.
  - apply index_file_NoDup. constructor.
  - apply index_file_get in H as [H | (? & ? & ?)]; [done | done].
  - apply index_file_get in H as [H | (? & ? & ?)]; [done | done].
  - apply index_file_get in H as [H | (? & ? & ?)]; [done | done].
  - intros Hu node Hin Hty. by apply index_file_get_unique.
Qed.

(** C4 fails as stated: a folder node is not indexed. *)
Lemma flattenFiles_skips_folders :
  folder_a ∈ nodes tree_a
  ∧ JsMap.has (flattenFiles tree_a JsMap.empty) (id folder_a) = false
  ∧ JsMap.keys (flattenFiles tree_a JsMap.empty) = ["/a/x.js"].
Proof. repeat split. left. Qed.

(* ===================================================================== *)
(** ** The refresh protocol: new-file detection *)
(* ===================================================================== *)

Lemma JsMap_set_files (m : JsMap.t Node) node :
  type node = file →
  Forall (λ entry, type entry.2 = file) m →
  Forall (λ entry, type entry.2 = file) (JsMap.set m (id node) node).
Proof.
  intros Hty. induction 1 as [| [k0 n0] r H0 Hr IH]; cbn.
  - by repeat constructor.
  - case_decide; constructor; done.
Qed.

Lemma index_file_files l : ∀ (m : JsMap.t Node),
  Forall (λ entry, type entry.2 = file) m →
  Forall (λ entry, type entry.2 = file) (foldl index_file m l).
Proof.
  induction l as [| x r IH]; intros m Hm; [done|].
  cbn [foldl]. apply IH. unfold index_file.
  destruct (type x) eqn:Hty; [by apply JsMap_set_files | done].
Qed.

Lemma flattenFiles_files tree :
  Forall (λ entry, type entry.2 = file) (flattenFiles tree JsMap.empty).
Proof. rewrite flattenFiles_nodes. apply index_file_files. constructor. Qed.

(** The loop over the new index collects, in index order, the keys that
    the old index lacks. *)
Lemma collect_newFileIds_filter (prevMap newMap : JsMap.t Node) :
  Forall (λ entry, type entry.2 = file) newMap →
  collect_newFileIds prevMap newMap =
    filter (λ k, k ∉ JsMap.keys prevMap) (JsMap.keys newMap).
Proof.
  unfold collect_newFileIds, JsMap.keys.
  set (step := λ (newFileIds : list string) (entry : string * Node), _).
  intros Hfiles.
  assert (∀ acc, foldl step acc newMap =
            acc ++ filter (λ k, k ∉ prevMap.*1) newMap.*1) as Hgen.
  { induction Hfiles as [| [k0 n0] r Hty _ IH]; intros acc; cbn [foldl].
    - by rewrite app_nil_r.
    - rewrite IH. unfold step. cbn [fst snd] in *.
      rewrite fmap_cons, filter_cons. cbn [fst].
      rewrite (bool_decide_eq_true_2 _ Hty), andb_true_r.
      destruct (JsMap.has prevMap k0) eqn:Hhas; cbn [negb].
      + apply JsMap_has_keys in Hhas. by rewrite decide_False by (by intros ?).
      + rewrite decide_True; [by rewrite <- app_assoc|].
        intros Hin%JsMap_has_keys. congruence. }
  exact (Hgen []).
Qed.

Lemma collect_newFileIds_flatten prevFiles newTree :
  collect_newFileIds (flattenFiles prevFiles JsMap.empty)
                     (flattenFiles newTree JsMap.empty)
  = new_file_ids prevFiles newTree.
Proof. apply collect_newFileIds_filter, flattenFiles_files. Qed.

Lemma new_file_ids_fresh prevFiles newTree k :
  k ∈ new_file_ids prevFiles newTree →
  k ∉ JsMap.keys (flattenFiles prevFiles JsMap.empty).
Proof. unfold new_file_ids. by intros [? _]%list_elem_of_filter. Qed.

Lemma open_new_files_spec newFileIds : ∀ prev,
  ∃ added, open_new_files newFileIds prev = prev ++ added
           ∧ NoDup added
           ∧ ∀ k, k ∈ added ↔ k ∈ newFileIds ∧ k ∉ prev.
Proof.
  unfold open_new_files.
  induction newFileIds as [| x r IH]; intros prev; cbn [foldl].
  - exists []. rewrite app_nil_r. split; [done|]. split; [constructor|].
    intros k. split; [intros H; by apply elem_of_nil in H | intros [H _]; by apply elem_of_nil in H].
  - case_bool_decide as Hx.
    + destruct (IH prev) as (added & -> & Hnd & Hadd). exists added.
      split; [done|]. split; [done|]. intros k. rewrite Hadd, elem_of_cons.
      split; [intros [? ?]; auto|]. intros [[-> | ?] ?]; [contradiction | done].
    + destruct (IH (prev ++ [x])) as (added & -> & Hnd & Hadd). exists (x :: added).
      split; [by rewrite <- app_assoc|]. split.
      * apply NoDup_cons. split; [| done]. intros [_ Hn]%Hadd. apply Hn.
        apply elem_of_app. right. left.
      * intros k. rewrite !elem_of_cons, Hadd, elem_of_app, list_elem_of_singleton.
        split.
        -- intros [-> | [? Hn]]; [auto|]. split; [auto|]. intros ?. apply Hn. by left.
        -- intros [[-> | ?] Hn]; [by left|].
           destruct (decide (k = x)) as [-> | Hne]; [by left|].
           right. split; [done|]. intros [? | ?]; contradiction.
Qed.

(** C3.  On a refresh with a non-empty old tree, let [newFileIds] be the
    file ids of the new index that the old index lacks, in index order.
    When there are none no timer is armed; otherwise one timer is armed,
    and when it runs it appends each new id that is not yet open to the
    open files, makes the last new id the active file and fetches content
    for that id alone; an id of the old index gets no new tab, is not
    activated and is not fetched. *)
Theorem refresh_opens_new_files (st : AppState) (newTree : list Node) :
  files st ≠ [] →
  let newFileIds := new_file_ids (files st) newTree in
  fetchFileTree_resolve (TreeShape newTree) st =
    (setFiles st (mergeTreeContent (files st) newTree),
     match newFileIds with [] => [] | _ :: _ => [OpenNewFiles newFileIds] end)
  ∧ ∀ lastNewId st1, last newFileIds = Some lastNewId →
      (∃ added, openFiles (run_timer (OpenNewFiles newFileIds) st1).1
                  = openFiles st1 ++ added
                ∧ NoDup added
                ∧ ∀ k, k ∈ added ↔ k ∈ newFileIds ∧ k ∉ openFiles st1)
      ∧ activeFileId (run_timer (OpenNewFiles newFileIds) st1).1 = Some lastNewId
      ∧ (run_timer (OpenNewFiles newFileIds) st1).2 = [FetchFileContent lastNewId]
      ∧ ∀ k, k ∈ JsMap.keys (flattenFiles (files st) JsMap.empty) →
          (k ∈ openFiles (run_timer (OpenNewFiles newFileIds) st1).1 → k ∈ openFiles st1)
          ∧ activeFileId (run_timer (OpenNewFiles newFileIds) st1).1 ≠ Some k
          ∧ FetchFileContent k ∉ (run_timer (OpenNewFiles newFileIds) st1).2.
Proof.
  intros Hne newFileIds. split.
  - unfold fetchFileTree_resolve, refresh_update.
    rewrite collect_newFileIds_flatten. fold newFileIds.
    destruct (files st) as [| f0 fr] eqn:Hfiles; [done|].
    cbn [length Nat.ltb Nat.leb]. by destruct newFileIds.
  - intros lastNewId st1 Hlast. cbn [run_timer]. rewrite Hlast. cbn [fst snd].
    destruct (open_new_files_spec newFileIds (openFiles st1))
      as (added & Heq & Hnd & Hadd).
    unfold setActiveFileId, setOpenFiles. cbn [openFiles activeFileId].
    assert (lastNewId ∉ JsMap.keys (flattenFiles (files st) JsMap.empty)) as Hfresh.
    { apply last_Some_elem_of in Hlast. by apply new_file_ids_fresh in Hlast. }
    split; [eauto|]. split; [done|]. split; [done|].
    intros k Hk. split; [| split].
    + rewrite Heq, elem_of_app. intros [? | Hin]; [done|].
      apply Hadd in Hin as [Hin _]. by apply new_file_ids_fresh in Hin.
    + intros [= ->]. contradiction.
    + rewrite list_elem_of_singleton. intros [= ->]. contradiction.
Qed.

(* ===================================================================== *)
(** ** The live channel: file-change events *)
(* ===================================================================== *)

Lemma refresh_open_files_filter filesToRefresh editingId :
  refresh_open_files filesToRefresh editingId =
    FetchFileContent <$> filter (λ fid, Some fid ≠ editingId) filesToRefresh.
Proof.
  unfold refresh_open_files.
  set (step := λ (calls : list Call) (fid : string), _).
  assert (∀ l acc, foldl step acc l =
            acc ++ (FetchFileContent <$> filter (λ fid, Some fid ≠ editingId) l)) as Hgen.
  { induction l as [| x r IH]; intros acc; cbn [foldl].
    - by rewrite app_nil_r.
    - rewrite IH. unfold step. rewrite filter_cons.
      case_bool_decide as Hx.
      + rewrite decide_True by done. by rewrite fmap_cons, <- app_assoc.
      + rewrite decide_False; [done | by intros ?]. }
  exact (Hgen filesToRefresh []).
Qed.

(** While the pending file is a file of the current tree, the timers of
    a tree refresh do not fetch it: on a first load the timer is not armed
    while a save is pending, and afterwards only ids that the old index
    lacks are fetched.  Without that condition the refresh does fetch
    it. *)
Lemma refresh_timers_skip_pending
    (st st1 : AppState) (resp : TreeResponse) (pending : SaveData) (t : Timer) :
  fileToSaveRef st = Some pending →
  files st = [] ∨ save_id pending ∈ JsMap.keys (flattenFiles (files st) JsMap.empty) →
  t ∈ (fetchFileTree_resolve resp st).2 →
  FetchFileContent (save_id pending) ∉ (run_timer t st1).2.
Proof.
  intros Hpending Hknown Ht.
  destruct resp as [newTree |]; cbn in Ht; [| by apply elem_of_nil in Ht].
  unfold refresh_update in Ht. cbn [snd] in Ht.
  destruct (files st) as [| f0 fr] eqn:Hfiles.
  - cbn [length Nat.ltb Nat.leb] in Ht. rewrite Hpending in Ht.
    destruct (activeFileId st) as [activeId |]; [| by apply elem_of_nil in Ht].
    rewrite (bool_decide_eq_true_2 (is_Some (Some pending))) in Ht by eauto.
    cbn [negb andb] in Ht. rewrite andb_false_r in Ht. by apply elem_of_nil in Ht.
  - destruct Hknown as [? | Hknown]; [done|].
    cbn [length Nat.ltb Nat.leb] in Ht.
    rewrite <- Hfiles, collect_newFileIds_flatten in Ht.
    destruct (new_file_ids (files st) newTree) as [| k0 kr] eqn:Hids;
      [by apply elem_of_nil in Ht|].
    cbn [length Nat.ltb Nat.leb] in Ht. apply list_elem_of_singleton in Ht as ->.
    cbn [run_timer]. destruct (last (k0 :: kr)) as [lastNewId |] eqn:Hlast;
      cbn [snd]; [| apply not_elem_of_nil].
    rewrite list_elem_of_singleton. intros [= <-].
    apply last_Some_elem_of in Hlast. rewrite <- Hids in Hlast.
    apply new_file_ids_fresh in Hlast. by rewrite Hfiles in Hlast.
Qed.

(* ===================================================================== *)
(** ** filterNodes *)
(* ===================================================================== *)

Lemma string_app_cons c r s : String c r +:+ s = String c (r +:+ s).
Proof. reflexivity. Qed.

Lemma string_app_nil_r s : s +:+ EmptyString = s.
Proof. induction s as [| c r IH]; [done|]. by rewrite string_app_cons, IH. Qed.

Lemma string_app_assoc a b c : (a +:+ b) +:+ c = a +:+ (b +:+ c).
Proof. induction a as [| x r IH]; [done|]. by rewrite !string_app_cons, IH. Qed.

Lemma prefix_spec t : ∀ s,
  String.prefix t s = true ↔ ∃ after, s = t +:+ after.
Proof.
  induction t as [| c t IH]; intros s.
  - split; [intros _; by exists s | by destruct s].
  - destruct s as [| d s]; cbn [String.prefix].
    + split; [done | intros [after Hs]; by rewrite string_app_cons in Hs].
    + destruct (Ascii.ascii_dec c d) as [-> | Hne].
      * rewrite IH. split; intros [after Hs]; exists after.
        -- by rewrite string_app_cons, Hs.
        -- rewrite string_app_cons in Hs. congruence.
      * split; [done|]. intros [after Hs].
        rewrite string_app_cons in Hs. congruence.
Qed.

(** [includes] finds exactly the strings that occur somewhere in [s]. *)
Lemma includes_spec s t :
  includes s t = true ↔ ∃ before after, s = before +:+ t +:+ after.
Proof.
  split.
  - induction s as [| c s IH]; cbn [includes]; rewrite orb_true_iff, prefix_spec.
    + intros [[after Hs] | [=]]. by exists EmptyString, after.
    + intros [[after Hs] | Hin]; [by exists EmptyString, after|].
      destruct (IH Hin) as (before & after & ->).
      by exists (String c before), after.
  - intros (before & after & ->).
    induction before as [| c before IH].
    + change (EmptyString +:+ t +:+ after) with (t +:+ after).
      assert (String.prefix t (t +:+ after) = true) as Hp
        by (apply prefix_spec; by eexists).
      destruct (t +:+ after); cbn [includes]; by rewrite Hp.
    + rewrite string_app_cons. cbn [includes]. rewrite IH. apply orb_true_r.
Qed.

Section FilterNodes.
Context `{builtins : StringBuiltins}.

Lemma toLowerCase_empty : toLowerCase EmptyString = EmptyString.
Proof. by rewrite toLowerCase_on_ascii. Qed.

(** A name matches a term when, both lower-cased, the term occurs in the
    name. *)
Lemma name_matches_spec term node :
  name_matches term node = true ↔
  ∃ before after, toLowerCase (name node) = before +:+ toLowerCase term +:+ after.
Proof. apply includes_spec. Qed.

Lemma filterNodes_step_unfold term acc node :
  filterNodes_step term acc node =
    match type node with
    | file => if name_matches term node then acc ++ [node] else acc
    | folder =>
        let filteredChildren := filterNodes (children_or_empty node) term in
        if (0 <? length filteredChildren)%nat || name_matches term node
        then acc ++ [with_children_open node filteredChildren]
        else acc
    end.
Proof. destruct node as [i nm ty [ch|] ct op]; reflexivity. Qed.

Lemma filterNodes_step_acc term acc node :
  filterNodes_step term acc node = acc ++ filterNodes_step term [] node.
Proof.
  rewrite !filterNodes_step_unfold. cbv zeta.
  destruct (type node); repeat case_match; by rewrite ?app_nil_r.
Qed.

Lemma filterNodes_foldl term l : ∀ acc,
  foldl (filterNodes_step term) acc l = acc ++ filterNodes l term.
Proof.
  unfold filterNodes. induction l as [| x r IH]; intros acc; cbn [foldl].
  - by rewrite app_nil_r.
  - rewrite IH, (IH (filterNodes_step term [] x)), filterNodes_step_acc.
    by rewrite app_assoc.
Qed.

Lemma filterNodes_cons term node tree :
  filterNodes (node :: tree) term = filterNodes_step term [] node ++ filterNodes tree term.
Proof. unfold filterNodes at 1. cbn [foldl]. apply filterNodes_foldl. Qed.

Lemma includes_empty s : includes s EmptyString = true.
Proof. by destruct s. Qed.

Lemma name_matches_empty node : name_matches EmptyString node = true.
Proof. unfold name_matches. rewrite toLowerCase_empty. apply includes_empty. Qed.

Lemma filterNodes_step_empty_term node :
  filterNodes_step EmptyString [] node = [expand_all node].
Proof.
  induction node as [i nm ty ct op | i nm ty ch ct op IH] using Node_forall_ind;
    rewrite filterNodes_step_unfold; cbn [type children children_or_empty];
    cbv zeta; rewrite name_matches_empty, ?orb_true_r.
  - by destruct ty.
  - destruct ty; [done|]. cbn [app expand_all type children]. do 2 f_equal.
    induction IH as [| x r Hx _ IHr]; [done|].
    rewrite filterNodes_cons, Hx, IHr. by rewrite fmap_cons.
Qed.

(** C5, as the code has it.  With the empty term every node is kept, in
    order: a file as it is, a folder expanded ([isOpen = true]) and with
    all its children treated the same way. *)
Theorem filterNodes_empty_term_expands (tree : list Node) :
  filterNodes tree EmptyString = expand_all <$> tree.
Proof.
  induction tree as [| x r IH]; [done|].
  by rewrite filterNodes_cons, filterNodes_step_empty_term, IH, fmap_cons.
Qed.

Lemma tree_ok_cons node tree :
  tree_ok (node :: tree) ↔
  node_ok node ∧ tree_ok (children_or_empty node) ∧ tree_ok tree.
Proof.
  unfold tree_ok. rewrite nodes_cons, Forall_app, subtree_unfold, Forall_cons. tauto.
Qed.

Lemma tree_ok_single node :
  node_ok node → tree_ok (children_or_empty node) → tree_ok [node].
Proof. intros ? ?. apply tree_ok_cons. repeat split; [done | done | constructor]. Qed.

Lemma existsb_kept_nodes term tree :
  tree_ok tree →
  existsb (kept term) tree = existsb (name_matches term) (nodes tree).
Proof.
  induction tree as [| x r IH]; [done|].
  intros (Hx & _ & Hr)%tree_ok_cons.
  rewrite nodes_cons, existsb_app, subtree_unfold. cbn [existsb].
  rewrite IH by done. f_equal. unfold kept, descendants, node_ok in *.
  destruct (type x); [| done].
  unfold children_or_empty. rewrite Hx. cbn. by rewrite orb_false_r.
Qed.

Lemma length_filter_kept term (tree : list Node) :
  (0 <? length (restricted term <$> List.filter (kept term) tree))%nat
  = existsb (kept term) tree.
Proof.
  induction tree as [| x r IH]; [done|].
  cbn [List.filter existsb]. destruct (kept term x); [done | apply IH].
Qed.

Lemma filterNodes_step_kept term node :
  tree_ok [node] →
  filterNodes_step term [] node =
    if kept term node then [restricted term node] else [].
Proof.
  induction node as [i nm ty ct op | i nm ty ch ct op IH] using Node_forall_ind;
    intros (Hn & Hch & _)%tree_ok_cons; rewrite filterNodes_step_unfold;
    unfold kept, restricted, descendants; cbn [type children children_or_empty] in *.
  - destruct ty; [done|]. cbn. by rewrite orb_false_r.
  - destruct ty; [done|]. cbv zeta.
    assert (filterNodes ch term = restricted term <$> List.filter (kept term) ch) as Hfc.
    { clear Hn. induction IH as [| x r Hx _ IHr]; [done|].
      apply tree_ok_cons in Hch as (Hx1 & Hx2 & Hr).
      rewrite filterNodes_cons, Hx, IHr by (done || by apply tree_ok_single).
      cbn [List.filter]. by destruct (kept term x). }
    rewrite Hfc at 1. rewrite length_filter_kept, existsb_kept_nodes by done.
    rewrite orb_comm. by destruct (_ || _).
Qed.

Lemma filterNodes_kept term tree :
  tree_ok tree →
  filterNodes tree term = restricted term <$> List.filter (kept term) tree.
Proof.
  induction tree as [| x r IH]; [done|].
  intros (Hx1 & Hx2 & Hr)%tree_ok_cons.
  rewrite filterNodes_cons, filterNodes_step_kept, IH by (done || by apply tree_ok_single).
  cbn [List.filter]. by destruct (kept term x).
Qed.

Lemma filterNodes_folders_open term node :
  tree_ok [node] →
  Forall (λ n, type n = folder → isOpen n = Some true)
         (nodes (filterNodes_step term [] node)).
Proof.
  induction node as [i nm ty ct op | i nm ty ch ct op IH] using Node_forall_ind;
    intros (Hn & Hch & _)%tree_ok_cons; rewrite filterNodes_step_unfold;
    unfold node_ok in *; cbn [type children children_or_empty] in *.
  - destruct ty; cbv zeta; repeat case_match; repeat constructor; done.
  - destruct ty; [done|]. cbv zeta. case_match; [| constructor].
    rewrite app_nil_l, nodes_cons, nodes_nil, app_nil_r, subtree_unfold.
    constructor; [done|]. cbn [children_or_empty children with_children_open].
    clear Hn H. induction IH as [| x r Hx _ IHr]; [constructor|].
    apply tree_ok_cons in Hch as (Hx1 & Hx2 & Hr).
    rewrite filterNodes_cons, nodes_app. apply Forall_app. split.
    + apply Hx. by apply tree_ok_single.
    + by apply IHr.
Qed.

(** C6.  Whatever the runtime's [toLowerCase] does, a name matches the
    term exactly when the lower-cased term occurs in the lower-cased name,
    and on a tree that satisfies the file/folder invariant [filterNodes]
    returns, in order, exactly the files whose name matches and the
    folders whose name matches or that have a node below them whose name
    does; a file is returned as it is, a folder with [isOpen = true] and
    the recursively filtered children; every folder anywhere in the result
    is expanded. *)
Theorem filterNodes_keeps_matches (tree : list Node) (term : string) :
  tree_ok tree →
  (∀ node, name_matches term node = true ↔
           ∃ before after,
             toLowerCase (name node) = before +:+ toLowerCase term +:+ after)
  ∧ filterNodes tree term = restricted term <$> List.filter (kept term) tree
  ∧ Forall (λ n, type n = folder → isOpen n = Some true)
           (nodes (filterNodes tree term)).
Proof.
  intros Hok. split; [intros node; apply name_matches_spec|].
  split; [by apply filterNodes_kept|].
  induction tree as [| x r IH]; [constructor|].
  apply tree_ok_cons in Hok as (Hx1 & Hx2 & Hr).
  rewrite filterNodes_cons, nodes_app. apply Forall_app. split.
  - apply filterNodes_folders_open. by apply tree_ok_single.
  - by apply IH.
Qed.

End FilterNodes.

(* ===================================================================== *)
(** ** The theorems at work on the sample trees *)
(* ===================================================================== *)

(** Case analysis on membership in an explicit list. *)
Ltac each_member H :=
  repeat (apply elem_of_cons in H as [-> | H]);
  [.. | by apply elem_of_nil in H].

(** The sample strings are ASCII: the built-ins are run as ECMAScript
    fixes them there. *)
Section SampleRuns.
#[local] Existing Instance ascii_builtins.

(** C5 fails as stated: a closed folder comes back expanded. *)
Lemma filterNodes_empty_term_opens_folders :
  filterNodes tree_closed EmptyString ≠ tree_closed
  ∧ isOpen <$> tree_closed = [Some false]
  ∧ isOpen <$> filterNodes tree_closed EmptyString = [Some true].
Proof. repeat split. discriminate. Qed.


Lemma mergeTreeContent_preserves_content_witness :
  (∃ merged, findNodeById (mergeTreeContent tree_a tree_a_grown) "/a/x.js" = Some merged
             ∧ content merged = Some "let x = 1")
  ∧ (∀ node, node ∈ nodes (mergeTreeContent tree_a tree_a_grown) →
             id node = "/a/x.js" → content node = Some "let x = 1").
Proof.
  apply (mergeTreeContent_preserves_content tree_a tree_a_grown file_x "let x = 1").
  - apply (bool_decide_unpack _). vm_compute. exact I.
  - vm_compute. right. left.
  - reflexivity.
  - reflexivity.
  - apply (bool_decide_unpack _). vm_compute. exact I.
Defined.

Lemma refresh_opens_new_files_witness :
  files state_editing ≠ []
  ∧ fetchFileTree_resolve (TreeShape tree_a_grown) state_editing =
      (setFiles state_editing (mergeTreeContent tree_a tree_a_grown),
       [OpenNewFiles ["/a/y.js"]])
  ∧ run_timer (OpenNewFiles ["/a/y.js"]) state_editing
    = (setActiveFileId state_editing (Some "/a/y.js"), [FetchFileContent "/a/y.js"]).
Proof.
  assert (files state_editing ≠ []) as Hne by (vm_compute; discriminate).
  destruct (refresh_opens_new_files state_editing tree_a_grown Hne) as [Hres Hrun].
  split; [exact Hne|]. split; [exact Hres|].
  destruct (Hrun "/a/y.js" state_editing eq_refl) as (_ & Hactive & Hcalls & _).
  reflexivity.
Defined.

Lemma flattenFiles_indexes_files_witness :
  unique_ids tree_a
  ∧ JsMap.get (flattenFiles tree_a JsMap.empty) "/a/x.js" = Some file_x.
Proof.
  assert (unique_ids tree_a) as Hu by (apply (bool_decide_unpack _); vm_compute; exact I).
  split; [exact Hu|].
  destruct (flattenFiles_indexes_files tree_a) as (_ & _ & _ & _ & Hget).
  apply (Hget Hu file_x); [vm_compute; right; left | reflexivity].
Defined.

Lemma filterNodes_keeps_matches_witness :
  tree_ok tree_a
  ∧ filterNodes tree_a "X" = restricted "X" <$> List.filter (kept "X") tree_a
  ∧ Forall (λ n, type n = folder → isOpen n = Some true)
           (nodes (filterNodes tree_a "X")).
Proof.
  assert (tree_ok tree_a) as Hok by (vm_compute; repeat constructor).
  split; [exact Hok|].
  exact (proj2 (filterNodes_keeps_matches tree_a "X" Hok)).
Defined.

Lemma updateFileContent_replaces_and_frames_witness :
  findNodeById (updateFileContent tree_a "/a/x.js" (Some "let x = 2")) "/a/x.js"
    = Some (with_content file_x (Some "let x = 2"))
  ∧ updateFileContent tree_a "/a/z.js" (Some "let z = 0") = tree_a.
Proof.
  split.
  - apply (proj1 (updateFileContent_replaces_and_frames tree_a "/a/x.js" (Some "let x = 2"))).
    reflexivity.
  - apply (proj2 (proj2 (updateFileContent_replaces_and_frames tree_a "/a/z.js" (Some "let z = 0")))).
    apply (bool_decide_unpack _). vm_compute. exact I.
Defined.

Lemma tree_ok_preserved_on_file_ids_witness :
  tree_ok tree_a_grown
  ∧ tree_ok (updateFileContent tree_a_grown "/a/y.js" (Some "let y"))
  ∧ tree_ok (updateNodeContent "/a/y.js" "let y = 0" tree_a_grown)
  ∧ tree_ok (mergeTreeContent tree_a tree_a_grown).
Proof.
  assert (tree_ok tree_a_grown) as Hok by (vm_compute; repeat constructor).
  destruct (tree_ok_preserved_on_file_ids tree_a tree_a_grown "/a/y.js"
              (Some "let y") "let y = 0" Hok) as [Hupd Hmerge].
  split; [exact Hok|].
  assert (∀ node, node ∈ nodes tree_a_grown → id node = "/a/y.js" → type node = file)
    as Hfile.
  { intros node Hin. vm_compute in Hin. each_member Hin; by intros. }
  destruct (Hupd Hfile) as [H1 H2]. split; [exact H1|]. split; [exact H2|].
  apply Hmerge. intros node f Hin Hty Hf Hfty Hid.
  vm_compute in Hin. vm_compute in Hf.
  each_member Hin; try discriminate Hty; each_member Hf; discriminate.
Defined.

(** The end-to-end search of the specification: the folder is retained,
    expanded, with the single file; the match is case-insensitive. *)
Example filterNodes_end_to_end :
  filterNodes [mkNode "/a" "a" folder (Some [file_x_bare]) None None] "X"
  = [mkNode "/a" "a" folder (Some [file_x_bare]) None (Some true)].
Proof. reflexivity. Qed.

(** A refresh that finds [/a/y.js] opens and activates it and fetches its
    content alone; the pending edit of [/a/x.js] is carried over. *)
Example refresh_end_to_end :
  fetchFileTree_resolve (TreeShape tree_a_grown) state_editing
  = (setFiles state_editing
       [mkNode "/a" "a" folder (Some [file_x; file_y_bare]) None None],
     [OpenNewFiles ["/a/y.js"]])
  ∧ run_timer (OpenNewFiles ["/a/y.js"]) (setOpenFiles state_editing ["/a/x.js"])
    = (setActiveFileId (setOpenFiles state_editing ["/a/x.js"; "/a/y.js"]) (Some "/a/y.js"),
       [FetchFileContent "/a/y.js"]).
Proof. split; reflexivity. Qed.

(** C2 fails in the code.  [/a/x.js] has an unsaved edit, so
    [fileToSaveRef] names it, and a refresh has meanwhile dropped it from
    the tree.  When a [file_change] frame arrives, the handler's own
    re-fetches leave the pending file out, but the tree refresh that the
    handler starts finds [/a/x.js] again, takes it for a new file (this
    branch of [fetchFileTree] does not look at [fileToSaveRef], the
    first-load branch does), and its timer fetches the content of the
    pending file; the reply then replaces the content in the tree while
    the save is still pending. *)
Theorem refresh_fetches_pending_file :
  reachable "Welcome" state_file_gone
  ∧ fileToSaveRef state_file_gone = Some (mkSaveData "/a/x.js" "let x = 2")
  ∧ onmessage 9 file_change_frame state_file_gone
    = Handled state_file_gone [FetchFileTree]
  ∧ fetchFileTree_resolve (TreeShape tree_a_bare) state_file_gone
    = (setFiles state_file_gone tree_a_bare, [OpenNewFiles ["/a/x.js"]])
  ∧ run_timer (OpenNewFiles ["/a/x.js"]) (setFiles state_file_gone tree_a_bare)
    = (setFiles state_file_gone tree_a_bare, [FetchFileContent "/a/x.js"])
  ∧ fetchFileContent_resolve "/a/x.js" (Some "let x = 1")
      (setFiles state_file_gone tree_a_bare)
    = setFiles state_file_gone tree_a.
Proof.
  split; [| repeat split].
  change state_file_gone with
    (fetchFileTree_resolve (TreeShape tree_a_emptied)
       (handleFileContentChange "/a/x.js" "let x = 2"
          (handleNodeSelect file_x_bare
             (fetchFileTree_resolve (TreeShape tree_a_bare)
                (initial_state "Welcome")).1).1)).1.
  apply reach_tree, reach_edit, reach_select, reach_tree, reach_initial.
Qed.

End SampleRuns.

(* ===================================================================== *)
(** ** More on findNodeById and updateFileContent *)
(* ===================================================================== *)

Lemma head_app_filter {A} (l1 l2 : list A) :
  head (l1 ++ l2) = match head l1 with Some x => Some x | None => head l2 end.
Proof. by destruct l1. Qed.

Lemma findNodeById_node_first fid node :
  findNodeById_node fid node = head (filter (λ n, id n = fid) (subtree node)).
Proof.
  induction node as [i nm ty ct op | i nm ty ch ct op IH] using Node_forall_ind;
    rewrite findNodeById_node_unfold, subtree_unfold, filter_cons;
    cbn [id children children_or_empty]; case_decide as Hid; try done.
  unfold findNodeById. induction IH as [| x r Hx _ IHr]; [done|].
  rewrite nodes_cons, filter_app, head_app_filter. cbn [first_found].
  rewrite Hx.
  destruct (head (filter (λ n, id n = fid) (subtree x))); [done | apply IHr].
Qed.

(** X1.  [findNodeById] returns the first node, in depth-first preorder,
    whose id is the one asked for, and [null] when there is none. *)
Theorem findNodeById_first_match (tree : list Node) (fid : string) :
  findNodeById tree fid = head (filter (λ n, id n = fid) (nodes tree)).
Proof.
  unfold findNodeById. induction tree as [| x r IH]; [done|].
  rewrite nodes_cons, filter_app, head_app_filter. cbn [first_found].
  rewrite findNodeById_node_first.
  destruct (head (filter (λ n, id n = fid) (subtree x))); [done | apply IH].
Qed.

Lemma NoDup_fmap_eq {A B} (f : A → B) (l : list A) x y :
  NoDup (f <$> l) → x ∈ l → y ∈ l → f x = f y → x = y.
Proof.
  induction l as [| a r IH]; intros Hnd Hx Hy Hf.
  - by apply elem_of_nil in Hx.
  - rewrite fmap_cons, NoDup_cons in Hnd. destruct Hnd as [Ha Hr].
    apply elem_of_cons in Hx as [-> | Hx]; apply elem_of_cons in Hy as [-> | Hy].
    + done.
    + exfalso. apply Ha. rewrite Hf. by apply list_elem_of_fmap_2.
    + exfalso. apply Ha. rewrite <- Hf. by apply list_elem_of_fmap_2.
    + by apply IH.
Qed.

Lemma findNodeById_unique_node tree node :
  unique_ids tree → node ∈ nodes tree →
  findNodeById tree (id node) = Some node.
Proof.
  intros Hu Hin. destruct (findNodeById_is_Some tree node Hin) as [found Hf].
  rewrite Hf. f_equal. apply findNodeById_Some in Hf as [Hfin Hid].
  by apply (NoDup_fmap_eq id (nodes tree)).
Qed.

(** X2.  In a tree with unique ids, looking up the id of any node of the
    tree, at any depth, returns that very node. *)
Theorem findNodeById_finds_node (tree : list Node) (node : Node) :
  unique_ids tree → node ∈ nodes tree →
  findNodeById tree (id node) = Some node.
Proof. apply findNodeById_unique_node. Qed.

Lemma with_content_twice node c1 c2 :
  with_content (with_content node c1) c2 = with_content node c2.
Proof. reflexivity. Qed.

Lemma updateFileContent_node_overwrite fileId c1 c2 node :
  updateFileContent_node fileId c2 (updateFileContent_node fileId c1 node)
  = updateFileContent_node fileId c2 node.
Proof.
  induction node as [i nm ty ct op | i nm ty ch ct op IH] using Node_forall_ind;
    rewrite (updateFileContent_node_unfold _ c1), (updateFileContent_node_unfold _ c2 (mkNode _ _ _ _ _ _));
    cbn [id children]; case_decide as Hid.
  - rewrite updateFileContent_node_unfold. cbn [id with_content]. by rewrite decide_True.
  - rewrite updateFileContent_node_unfold. cbn [id children]. by rewrite decide_False.
  - rewrite updateFileContent_node_unfold. cbn [id with_content]. by rewrite decide_True.
  - rewrite updateFileContent_node_unfold. cbn [id children with_children].
    rewrite decide_False by done. unfold with_children. cbn. do 2 f_equal.
    unfold updateFileContent. induction IH as [| x r Hx _ IHr]; [done|].
    rewrite !fmap_cons. by rewrite Hx, IHr.
Qed.

(** X3.  Two edits of the same id in a row leave what the second one
    alone would have left: the last write wins, and repeating an edit
    changes nothing. *)
Theorem updateFileContent_last_write_wins
    (tree : list Node) (fileId : string) (c1 c2 : option string) :
  updateFileContent (updateFileContent tree fileId c1) fileId c2
  = updateFileContent tree fileId c2.
Proof.
  unfold updateFileContent. induction tree as [| x r IH]; [done|].
  rewrite !fmap_cons. by rewrite updateFileContent_node_overwrite, IH.
Qed.

Lemma updateFileContent_node_commute a b ca cb node :
  a ≠ b →
  updateFileContent_node b cb (updateFileContent_node a ca node)
  = updateFileContent_node a ca (updateFileContent_node b cb node).
Proof.
  intros Hab.
  induction node as [i nm ty ct op | i nm ty ch ct op IH] using Node_forall_ind.
  - rewrite (updateFileContent_node_unfold a), (updateFileContent_node_unfold b _ (mkNode _ _ _ _ _ _)).
    cbn [id children]. repeat case_decide; subst;
      rewrite !updateFileContent_node_unfold; cbn [id children with_content];
      repeat case_decide; congruence.
  - rewrite (updateFileContent_node_unfold a), (updateFileContent_node_unfold b _ (mkNode _ _ _ _ _ _)).
    cbn [id children].
    assert (updateFileContent (updateFileContent ch a ca) b cb
            = updateFileContent (updateFileContent ch b cb) a ca) as Hch.
    { unfold updateFileContent. induction IH as [| x r Hx _ IHr]; [done|].
      rewrite !fmap_cons. by rewrite Hx, IHr. }
    repeat case_decide; subst;
      rewrite !updateFileContent_node_unfold;
      cbn [id children with_content with_children];
      repeat case_decide; try congruence; try done.
    unfold with_children. cbn. by rewrite Hch.
Qed.

(** X4.  Edits of two different ids commute: the tree does not depend on
    the order in which they arrive. *)
Theorem updateFileContent_commute
    (tree : list Node) (a b : string) (ca cb : option string) :
  a ≠ b →
  updateFileContent (updateFileContent tree a ca) b cb
  = updateFileContent (updateFileContent tree b cb) a ca.
Proof.
  intros Hab. unfold updateFileContent. induction tree as [| x r IH]; [done|].
  rewrite !fmap_cons. by rewrite updateFileContent_node_commute, IH.
Qed.

Lemma shape_updateFileContent_node fileId c node :
  shape_node (updateFileContent_node fileId c node) = shape_node node.
Proof.
  induction node as [i nm ty ct op | i nm ty ch ct op IH] using Node_forall_ind;
    rewrite updateFileContent_node_unfold; cbn [id children]; case_decide; try done.
  assert (shape (updateFileContent ch fileId c) = shape ch) as Hch.
  { unfold shape, updateFileContent. induction IH as [| x r Hx _ IHr]; [done|].
    rewrite !fmap_cons. by rewrite Hx, IHr. }
  unfold shape in Hch. cbn. by rewrite Hch.
Qed.

Lemma shape_updateFileContent tree fileId c :
  shape (updateFileContent tree fileId c) = shape tree.
Proof.
  unfold shape, updateFileContent. induction tree as [| x r IH]; [done|].
  rewrite !fmap_cons. by rewrite shape_updateFileContent_node, IH.
Qed.

Lemma ids_shape tree : ids (shape tree) = ids tree.
Proof.
  assert (∀ node, id <$> subtree (shape_node node) = id <$> subtree node) as Hnode.
  { induction node as [i nm ty ct op | i nm ty ch ct op IH] using Node_forall_ind;
      [done|].
    rewrite !subtree_unfold, !fmap_cons. cbn [shape_node id children children_or_empty].
    f_equal. induction IH as [| x r Hx _ IHr]; [done|].
    rewrite fmap_cons, !nodes_cons, !fmap_app. by rewrite Hx, IHr. }
  unfold ids, shape. induction tree as [| x r IH]; [done|].
  rewrite fmap_cons, !nodes_cons, !fmap_app. by rewrite Hnode, IH.
Qed.

(** X5.  Neither an edit nor a content response changes the shape of the
    tree: the same nodes in the same places with the same id, name, type
    and isOpen, whatever id and content they are given; in particular the
    ids stay the same, and unique. *)
Theorem content_updates_keep_shape
    (st : AppState) (fileId : string) (newContent : option string)
    (data_content : option string) :
  shape (updateFileContent (files st) fileId newContent) = shape (files st)
  ∧ shape (files (fetchFileContent_resolve fileId data_content st)) = shape (files st)
  ∧ ids (updateFileContent (files st) fileId newContent) = ids (files st)
  ∧ ids (files (fetchFileContent_resolve fileId data_content st)) = ids (files st).
Proof.
  assert (shape (files (fetchFileContent_resolve fileId data_content st))
          = shape (files st)) as Hres.
  { destruct data_content as [c|]; [| done]. cbn.
    by rewrite updateNodeContent_eq, shape_updateFileContent. }
  repeat split.
  - apply shape_updateFileContent.
  - done.
  - by rewrite <- ids_shape, shape_updateFileContent, ids_shape.
  - by rewrite <- ids_shape, Hres, ids_shape.
Qed.

(* ===================================================================== *)
(** ** More on mergeTreeContent and flattenFiles *)
(* ===================================================================== *)

Lemma applyContent_node_no_entry (contentMap : gmap string string) node :
  (∀ n, n ∈ subtree node → contentMap !! id n = None) →
  applyContent_node contentMap node = node.
Proof.
  induction node as [i nm ty ct op | i nm ty ch ct op IH] using Node_forall_ind;
    intros Hnone; rewrite applyContent_node_unfold;
    rewrite (Hnone _ (subtree_self _)); cbn [children]; [done|].
  unfold with_children. cbn. do 2 f_equal.
  assert (∀ n, n ∈ nodes ch → contentMap !! id n = None) as Hch.
  { intros n Hn. apply Hnone. rewrite subtree_unfold. by right. }
  clear Hnone. unfold applyContent. induction IH as [| x r Hx _ IHr]; [done|].
  rewrite fmap_cons. rewrite Hx, IHr; [done | |].
  - intros n Hn. apply Hch. rewrite nodes_cons. apply elem_of_app. by right.
  - intros n Hn. apply Hch. rewrite nodes_cons. apply elem_of_app. by left.
Qed.

Lemma applyContent_no_entry (contentMap : gmap string string) tree :
  (∀ n, n ∈ nodes tree → contentMap !! id n = None) →
  applyContent contentMap tree = tree.
Proof.
  unfold applyContent. induction tree as [| x r IH]; intros Hnone; [done|].
  rewrite fmap_cons. rewrite applyContent_node_no_entry, IH; [done | |].
  - intros n Hn. apply Hnone. rewrite nodes_cons. apply elem_of_app. by right.
  - intros n Hn. apply Hnone. rewrite nodes_cons. apply elem_of_app. by left.
Qed.

Lemma record_content_keeps l : ∀ (m : gmap string string) k,
  is_Some (m !! k) → is_Some (foldl record_content m l !! k).
Proof.
  induction l as [| x r IH]; intros m k Hk; [done|].
  cbn [foldl]. apply IH. unfold record_content.
  destruct (type x), (content x); try done.
  rewrite lookup_insert_is_Some. destruct (decide (id x = k)); auto.
Qed.

Lemma record_content_records l f c : ∀ (m : gmap string string),
  f ∈ l → type f = file → content f = Some c →
  is_Some (foldl record_content m l !! id f).
Proof.
  induction l as [| x r IH]; intros m Hin Hty Hc; [by apply elem_of_nil in Hin|].
  cbn [foldl]. apply elem_of_cons in Hin as [<- | Hin]; [| by apply IH].
  apply record_content_keeps. unfold record_content. rewrite Hty, Hc.
  rewrite lookup_insert_eq. eauto.
Qed.

(** The content map holds an entry for an id exactly when some file of the
    old tree with that id holds content. *)
Lemma traverseOld_lookup_None oldNodes k :
  traverseOld ∅ oldNodes !! k = None ↔
  ∀ f, f ∈ nodes oldNodes → type f = file → id f = k → content f = None.
Proof.
  rewrite traverseOld_nodes. split.
  - intros Hnone f Hf Hty Hid.
    destruct (content f) as [c|] eqn:Hc; [| done]. exfalso.
    destruct (record_content_records (nodes oldNodes) f c ∅ Hf Hty Hc) as [c' Hc'].
    rewrite Hid in Hc'. congruence.
  - intros Hall. destruct (foldl _ _ _ !! k) as [c|] eqn:E; [| done].
    apply record_content_origin in E as [E | (f & Hf & Hty & Hid & Hc)].
    + by rewrite lookup_empty in E.
    + rewrite (Hall f Hf Hty Hid) in Hc. done.
Qed.

(** X6.  On the first load, when the old tree is empty, the merge returns
    the backend's tree as it is. *)
Theorem mergeTreeContent_empty_old (newNodes : list Node) :
  mergeTreeContent [] newNodes = newNodes.
Proof.
  unfold mergeTreeContent. apply applyContent_no_entry.
  intros n _. apply lookup_empty.
Qed.

Lemma ids_mergeTreeContent oldNodes newNodes :
  ids (mergeTreeContent oldNodes newNodes) = ids newNodes.
Proof.
  unfold ids, mergeTreeContent. rewrite nodes_applyContent, <- list_fmap_compose.
  apply list_fmap_ext. intros _ n _. cbn. apply applyContent_node_id.
Qed.

(** X7.  The merged tree has exactly the ids of the new shape, so an id
    that the new shape dropped is not found in it; and a node whose id is
    not the id of an old file holding content keeps the content the new
    shape came with. *)
Theorem mergeTreeContent_follows_new_shape (oldNodes newNodes : list Node) :
  ids (mergeTreeContent oldNodes newNodes) = ids newNodes
  ∧ (∀ k, findNodeById (mergeTreeContent oldNodes newNodes) k = None ↔ k ∉ ids newNodes)
  ∧ Forall2 (λ n n',
       (∀ f, f ∈ nodes oldNodes → type f = file → id f = id n → content f = None) →
       content n' = content n)
      (nodes newNodes) (nodes (mergeTreeContent oldNodes newNodes)).
Proof.
  split; [apply ids_mergeTreeContent|]. split.
  - intros k. by rewrite findNodeById_None, ids_mergeTreeContent.
  - unfold mergeTreeContent. rewrite nodes_applyContent.
    apply Forall2_fmap_r, Forall_Forall2_diag, Forall_forall.
    intros n _ Hnone. apply traverseOld_lookup_None in Hnone.
    by rewrite applyContent_node_content, Hnone.
Qed.

Lemma applyContent_node_twice (contentMap : gmap string string) node :
  applyContent_node contentMap (applyContent_node contentMap node)
  = applyContent_node contentMap node.
Proof.
  induction node as [i nm ty ct op | i nm ty ch ct op IH] using Node_forall_ind.
  - cbn. destruct (contentMap !! i) eqn:E; cbn; by rewrite E.
  - assert (applyContent contentMap (applyContent contentMap ch)
            = applyContent contentMap ch) as Hch.
    { unfold applyContent. induction IH as [| x r Hx _ IHr]; [done|].
      rewrite !fmap_cons. by rewrite Hx, IHr. }
    rewrite (applyContent_node_unfold _ (mkNode _ _ _ _ _ _)). cbn [id children].
    destruct (contentMap !! i) eqn:E; cbv zeta;
      rewrite applyContent_node_unfold; cbn [id children with_children with_content];
      rewrite E; cbv zeta; unfold with_children; cbn; by rewrite Hch.
Qed.

(** X8.  Merging is idempotent: grafting the old content onto an already
    merged tree changes nothing, so a refresh that is applied twice does no
    harm. *)
Theorem mergeTreeContent_idempotent (oldNodes newNodes : list Node) :
  mergeTreeContent oldNodes (mergeTreeContent oldNodes newNodes)
  = mergeTreeContent oldNodes newNodes.
Proof.
  unfold mergeTreeContent, applyContent.
  induction newNodes as [| x r IH]; [done|].
  rewrite !fmap_cons. by rewrite applyContent_node_twice, IH.
Qed.

Lemma traverseOld_lookup_unique tree node :
  unique_ids tree → node ∈ nodes tree →
  traverseOld ∅ tree !! id node =
    match type node with file => content node | folder => None end.
Proof.
  intros Hu Hin.
  destruct (traverseOld ∅ tree !! id node) as [c|] eqn:E.
  - rewrite traverseOld_nodes in E.
    apply record_content_origin in E as [E | (f & Hf & Hty & Hid & Hc)].
    + by rewrite lookup_empty in E.
    + assert (f = node) as -> by by apply (NoDup_fmap_eq id (nodes tree)).
      by rewrite Hty, Hc.
  - destruct (type node) eqn:Hty; [| done].
    symmetry. by apply (proj1 (traverseOld_lookup_None tree (id node)) E node).
Qed.

Lemma applyContent_shape_node (contentMap : gmap string string) node :
  (∀ n, n ∈ subtree node →
        node_ok n ∧ contentMap !! id n
                    = match type n with file => content n | folder => None end) →
  applyContent_node contentMap (shape_node node) = node.
Proof.
  induction node as [i nm ty ct op | i nm ty ch ct op IH] using Node_forall_ind;
    intros Hall; destruct (Hall _ (subtree_self _)) as [Hok Hm];
    unfold node_ok in Hok; cbn [id type content children] in *.
  - cbn. rewrite Hm. destruct ty; [by destruct ct | by subst].
  - assert (applyContent contentMap (shape ch) = ch) as Hch.
    { assert (∀ n, n ∈ nodes ch →
                node_ok n ∧ contentMap !! id n
                  = match type n with file => content n | folder => None end) as Hsub.
      { intros n Hn. apply Hall. rewrite subtree_unfold. by right. }
      clear Hall Hok Hm. unfold applyContent, shape.
      induction IH as [| x r Hx _ IHr]; [done|].
      rewrite !fmap_cons. rewrite Hx, IHr; [done | |].
      - intros n Hn. apply Hsub. rewrite nodes_cons. apply elem_of_app. by right.
      - intros n Hn. apply Hsub. rewrite nodes_cons. apply elem_of_app. by left. }
    unfold applyContent, shape in Hch.
    cbn. rewrite Hm. destruct ty; [done|]. subst ct. cbn. by rewrite Hch.
Qed.

(** X9.  A refresh that reports the shape the client already has gives
    back the very tree the client had, loaded content included, provided
    the tree has unique ids and satisfies the file/folder invariant. *)
Theorem mergeTreeContent_same_shape (tree : list Node) :
  unique_ids tree → tree_ok tree →
  mergeTreeContent tree (shape tree) = tree.
Proof.
  intros Hu Hok. unfold mergeTreeContent.
  assert (∀ n, n ∈ nodes tree →
            node_ok n ∧ traverseOld ∅ tree !! id n
              = match type n with file => content n | folder => None end) as Hall.
  { intros n Hn. split; [| by apply traverseOld_lookup_unique].
    unfold tree_ok in Hok. rewrite Forall_forall in Hok. by apply Hok. }
  revert Hall. generalize (traverseOld ∅ tree). intros m. clear Hu Hok.
  unfold applyContent, shape. induction tree as [| x r IH]; intros Hall; [done|].
  rewrite !fmap_cons. rewrite applyContent_shape_node, IH; [done | |].
  - intros n Hn. apply Hall. rewrite nodes_cons. apply elem_of_app. by right.
  - intros n Hn. apply Hall. rewrite nodes_cons. apply elem_of_app. by left.
Qed.

Lemma JsMap_set_fresh {V} (m : JsMap.t V) k v :
  k ∉ JsMap.keys m → JsMap.set m k v = m ++ [(k, v)].
Proof.
  unfold JsMap.keys. induction m as [| [k0 v0] r IH]; cbn; [done|].
  rewrite not_elem_of_cons. intros [Hne Hr].
  rewrite decide_False by done. by rewrite IH.
Qed.

Lemma index_file_fresh l : ∀ (m : JsMap.t Node),
  NoDup (JsMap.keys m ++ (id <$> l)) →
  foldl index_file m l
  = m ++ ((λ n, (id n, n)) <$> filter (λ n, type n = file) l).
Proof.
  induction l as [| x r IH]; intros m Hnd; cbn [foldl].
  - by rewrite app_nil_r.
  - rewrite fmap_cons in Hnd. rewrite filter_cons. unfold index_file at 2.
    assert (id x ∉ JsMap.keys m) as Hx.
    { apply NoDup_app in Hnd as (_ & Hdisj & _). intros Hin.
      apply (Hdisj _ Hin). left. }
    destruct (type x) eqn:Hty.
    + rewrite decide_True by done. rewrite JsMap_set_fresh by done.
      rewrite IH.
      * by rewrite fmap_cons, <- app_assoc.
      * unfold JsMap.keys. rewrite fmap_app. cbn. rewrite <- app_assoc. exact Hnd.
    + rewrite decide_False by done. apply IH.
      apply NoDup_app in Hnd as (Hm & Hdisj & Hr). apply NoDup_app.
      split; [done|]. apply NoDup_cons in Hr as [_ Hr]. split; [| done].
      intros k Hk Hin. apply (Hdisj k Hk). by right.
Qed.

(** X10.  With unique ids the index lists the file nodes of the tree, each
    under its id, in depth-first preorder: iterating the index visits the
    files in the order in which the tree shows them. *)
Theorem flattenFiles_in_tree_order (tree : list Node) :
  unique_ids tree →
  flattenFiles tree JsMap.empty
  = (λ n, (id n, n)) <$> filter (λ n, type n = file) (nodes tree).
Proof.
  intros Hu. rewrite flattenFiles_nodes.
  rewrite index_file_fresh; [done|]. exact Hu.
Qed.

(* ===================================================================== *)
(** ** More on filterNodes *)
(* ===================================================================== *)

Section MoreFilterNodes.
Context `{builtins : StringBuiltins}.

Lemma filterNodes_app term t1 t2 :
  filterNodes (t1 ++ t2) term = filterNodes t1 term ++ filterNodes t2 term.
Proof.
  unfold filterNodes at 1. rewrite foldl_app.
  fold (filterNodes t1 term). apply filterNodes_foldl.
Qed.

Lemma filterNodes_fixed term l :
  Forall (λ n, filterNodes_step term [] n = [n]) l → filterNodes l term = l.
Proof.
  induction 1 as [| x r Hx _ IH]; [done|].
  by rewrite filterNodes_cons, Hx, IH.
Qed.

(** Whatever the filter returns for a node passes the filter unchanged. *)
Lemma filterNodes_step_fixed term node :
  Forall (λ n, filterNodes_step term [] n = [n]) (filterNodes_step term [] node).
Proof.
  induction node as [i nm ty ct op | i nm ty ch ct op IH] using Node_forall_ind.
  - rewrite filterNodes_step_unfold. cbn [type children children_or_empty].
    destruct ty; cbv zeta.
    + destruct (name_matches term _) eqn:Hm; [| constructor].
      constructor; [| constructor].
      rewrite filterNodes_step_unfold. cbn [type]. by rewrite Hm.
    + destruct (_ || _) eqn:Hm; [| constructor].
      constructor; [| constructor].
      rewrite filterNodes_step_unfold. cbn [type children_or_empty children with_children_open].
      cbv zeta. cbn in Hm. unfold name_matches in *.
      cbn [name with_children_open children foldl filterNodes length
           Nat.ltb Nat.leb orb] in *.
      by rewrite Hm.
  - assert (Forall (λ n, filterNodes_step term [] n = [n]) (filterNodes ch term)) as Hch.
    { induction IH as [| x r Hx _ IHr]; [constructor|].
      rewrite filterNodes_cons. by apply Forall_app. }
    rewrite filterNodes_step_unfold. cbn [type children children_or_empty].
    destruct ty; cbv zeta.
    + destruct (name_matches term _) eqn:Hm; [| constructor].
      constructor; [| constructor].
      rewrite filterNodes_step_unfold. cbn [type]. by rewrite Hm.
    + destruct (_ || _) eqn:Hm; [| constructor].
      constructor; [| constructor].
      rewrite filterNodes_step_unfold. cbn [type children_or_empty children with_children_open].
      cbv zeta. rewrite (filterNodes_fixed _ _ Hch).
      unfold name_matches in *. cbn [name with_children_open] in *.
      by rewrite Hm.
Qed.

(** X11.  Filtering is idempotent: filtering a filtered tree again with
    the same term returns it unchanged. *)
Theorem filterNodes_idempotent (tree : list Node) (term : string) :
  filterNodes (filterNodes tree term) term = filterNodes tree term.
Proof.
  apply filterNodes_fixed.
  induction tree as [| x r IH]; [constructor|].
  rewrite filterNodes_cons. apply Forall_app. split; [| done].
  apply filterNodes_step_fixed.
Qed.

Lemma filterNodes_step_files term node :
  tree_ok [node] →
  filter (λ n, type n = file) (nodes (filterNodes_step term [] node))
  = filter (λ n, type n = file ∧ name_matches term n) (subtree node).
Proof.
  induction node as [i nm ty ct op | i nm ty ch ct op IH] using Node_forall_ind;
    intros (Hn & Hch & _)%tree_ok_cons; rewrite filterNodes_step_unfold, subtree_unfold;
    unfold node_ok in Hn; cbn [type children children_or_empty] in *.
  - destruct ty; cbv zeta.
    + rewrite nodes_nil, filter_cons, filter_nil. cbn [type].
      destruct (name_matches term _) eqn:Hm.
      * by rewrite decide_True by done.
      * by rewrite decide_False by (intros [_ []]).
    + rewrite nodes_nil, filter_cons, filter_nil. cbn [type].
      rewrite decide_False by (intros [? _]; done).
      unfold filterNodes. cbn [foldl length Nat.ltb Nat.leb orb].
      destruct (name_matches term _); [| done].
      rewrite app_nil_l, nodes_cons, nodes_nil, app_nil_r, subtree_unfold.
      rewrite filter_cons. cbn [type with_children_open children_or_empty children].
      by rewrite decide_False by done.
  - destruct ty; [done|]. cbv zeta.
    assert (filter (λ n, type n = file) (nodes (filterNodes ch term))
            = filter (λ n, type n = file ∧ name_matches term n) (nodes ch)) as Hfc.
    { clear Hn. induction IH as [| x r Hx _ IHr]; [done|].
      apply tree_ok_cons in Hch as (Hx1 & Hx2 & Hr).
      rewrite filterNodes_cons, nodes_app, nodes_cons, !filter_app.
      rewrite Hx by (by apply tree_ok_single). by rewrite IHr. }
    rewrite (filter_cons _ (mkNode _ _ _ _ _ _)). cbn [type].
    rewrite decide_False by (intros [? _]; done).
    destruct (_ || _) eqn:Hkeep.
    + rewrite app_nil_l, nodes_cons, nodes_nil, app_nil_r, subtree_unfold.
      rewrite filter_cons. cbn [type with_children_open children_or_empty children].
      by rewrite decide_False by done.
    + apply orb_false_elim in Hkeep as [Hlen _].
      destruct (filterNodes ch term) eqn:Hnil; [| done].
      by rewrite <- Hfc.
Qed.

(** X12.  Whatever the runtime's [toLowerCase] does, on a tree that
    satisfies the file/folder invariant the files shown by a search are
    exactly the files of the tree whose name matches the term, at every
    depth and in tree order: no matching file is lost with a folder that
    was dropped, and no other file is shown. *)
Theorem filterNodes_shows_matching_files (tree : list Node) (term : string) :
  tree_ok tree →
  filter (λ n, type n = file) (nodes (filterNodes tree term))
  = filter (λ n, type n = file ∧ name_matches term n) (nodes tree).
Proof.
  induction tree as [| x r IH]; [done|].
  intros (Hx1 & Hx2 & Hr)%tree_ok_cons.
  rewrite filterNodes_cons, nodes_app, nodes_cons, !filter_app.
  rewrite filterNodes_step_files by (by apply tree_ok_single). by rewrite IH.
Qed.

End MoreFilterNodes.

(* ===================================================================== *)
(** ** What every reachable state satisfies *)
(* ===================================================================== *)

Lemma setMessages_same st : setMessages st (messages st) = st.
Proof. by destruct st. Qed.

Lemma setMessages_twice st m1 m2 :
  setMessages (setMessages st m1) m2 = setMessages st m2.
Proof. reflexivity. Qed.

Lemma onmessage_agent_chunk now data st earlier lastMsg :
  data_type data = "agent_chunk" →
  messages st = earlier ++ [lastMsg] →
  onmessage now data st =
    Handled (setMessages st
               (if bool_decide (role lastMsg = "agent") && isStreaming lastMsg
                then earlier ++ [mkMessage (msg_id lastMsg) "agent"
                                   (text lastMsg +:+ text_of (data_text data)) true]
                else messages st ++ [mkMessage now "agent"
                                       (text_of (data_text data)) true]))
            [].
Proof.
  intros Hty Hmsgs. unfold onmessage, agent_chunk_update.
  rewrite Hty, Hmsgs, last_snoc. cbn [bool_decide andb].
  rewrite length_app. cbn [length].
  replace (length earlier + 1 - 1) with (length earlier) by lia.
  rewrite take_app_length.
  destruct (bool_decide (role lastMsg = "agent")) eqn:Hrole; cbn [andb]; [| done].
  destruct (isStreaming lastMsg) eqn:Hs; [| done].
  apply bool_decide_eq_true_1 in Hrole. by rewrite Hrole.
Qed.

(** A frame leaves the tree and the tabs alone, and never empties the
    chat. *)
Lemma agent_chunk_update_nonempty now data prev msgs :
  agent_chunk_update now data prev = Some msgs → msgs ≠ [].
Proof.
  unfold agent_chunk_update. destruct (last prev) as [lastMsg |]; [| done].
  destruct (_ && _); intros [= <-] [_ ?]%app_eq_nil; done.
Qed.

Lemma onmessage_cells now data st st' calls :
  onmessage now data st = Handled st' calls →
  files st' = files st ∧ openFiles st' = openFiles st
  ∧ activeFileId st' = activeFileId st ∧ fileToSaveRef st' = fileToSaveRef st
  ∧ (messages st ≠ [] → messages st' ≠ []).
Proof.
  unfold onmessage. destruct (_ && _); [by intros [= <- <-]|].
  destruct (bool_decide (_ ∈ _)); [| by intros [= <- <-]].
  destruct (bool_decide (_ = "agent_chunk")).
  - destruct (agent_chunk_update now data (messages st)) as [msgs |] eqn:E; [| done].
    intros [= <- <-]. repeat split. intros _.
    by apply agent_chunk_update_nonempty in E.
  - intros [= <- <-]. repeat split. intros _. cbn. unfold agent_final_update.
    by intros [_ ?]%app_eq_nil.
Qed.

Lemma onmessage_no_throw now data st :
  messages st ≠ [] → onmessage now data st ≠ Threw.
Proof.
  intros Hne. unfold onmessage. destruct (_ && _); [done|].
  destruct (bool_decide (_ ∈ _)); [| done].
  destruct (bool_decide (_ = "agent_chunk")); [| done].
  unfold agent_chunk_update. destruct (last (messages st)) eqn:E.
  - by destruct (_ && _).
  - by apply last_None in E.
Qed.

Lemma open_new_files_NoDup newFileIds prev :
  NoDup prev → NoDup (open_new_files newFileIds prev).
Proof.
  intros Hnd. destruct (open_new_files_spec newFileIds prev) as (added & -> & Ha & Hadd).
  apply NoDup_app. split; [done|]. split; [| done].
  intros k Hk Hin. by apply Hadd in Hin as [_ ?].
Qed.

Lemma open_new_files_elem newFileIds prev k :
  k ∈ newFileIds → k ∈ open_new_files newFileIds prev.
Proof.
  intros Hk. destruct (open_new_files_spec newFileIds prev) as (added & -> & _ & Hadd).
  apply elem_of_app. destruct (decide (k ∈ prev)); [by left|].
  right. by apply Hadd.
Qed.

Section Reachable.
Context `{builtins : StringBuiltins}.

Lemma reachable_invariant welcome st :
  reachable welcome st → messages st ≠ [] ∧ NoDup (openFiles st).
Proof.
  induction 1 as [ | st now data st' calls _ IH Hrun | st resp _ IH
                 | st0 resp t st _ _ _ _ IH | st fileId dc _ IH | st node _ IH
                 | st fileId _ IH Hopen | st fileId _ IH
                 | called st sel confirmed delivered _ _ _ IH | st fileId c _ IH
                 | st fulfilled _ IH | st now wsOpen _ IH
                 | st now nowError inputText wsOpen _ IH ].
  - split; [done | constructor].
  - apply onmessage_cells in Hrun as (_ & -> & _ & _ & Hm).
    destruct IH as (? & ?). auto.
  - destruct resp as [newTree |]; [| done]. unfold fetchFileTree_resolve.
    destruct (refresh_update st newTree). done.
  - destruct IH as (Hm & Hnd). destruct t as [newFileIds | activeId]; [| done].
    cbn [run_timer]. destruct (last newFileIds); cbn;
      (split; [done | by apply open_new_files_NoDup]).
  - by destruct dc.
  - destruct IH as (Hm & Hnd). unfold handleNodeSelect.
    destruct (type node); [| done]. case_bool_decide as Hin; cbn; [done|].
    split; [done|]. apply NoDup_app. split; [done|]. split; [| apply NoDup_singleton].
    intros k Hk ->%list_elem_of_singleton. contradiction.
  - done.
  - destruct IH as (Hm & Hnd). unfold handleCloseFile.
    case_bool_decide; cbn; (split; [done | by apply NoDup_filter]).
  - destruct IH as (Hm & Hnd). unfold handleDeleteItem.
    destruct sel as [sel |]; [| done].
    destruct (bool_decide (sel = EmptyString)); [done|].
    destruct confirmed; cbn [negb]; [| done].
    destruct delivered; cbn [negb fst]; [| done].
    unfold close_deleted. case_bool_decide; [| done].
    case_bool_decide; cbn; (split; [done | by apply NoDup_filter]).
  - done.
  - by destruct fulfilled.
  - destruct IH as (Hm & Hnd). unfold handleStopResponse.
    destruct wsOpen; [| done]. cbn. split; [| done].
    by intros [_ ?]%app_eq_nil.
  - destruct IH as (Hm & Hnd). unfold handleChatSubmit.
    case_bool_decide; [done|]. destruct wsOpen; cbn;
      (split; [| done]; by intros [_ ?]%app_eq_nil).
Qed.

(** C8.  Every state the handlers can produce has a last chat message
    (the chat starts with the welcome message and is only ever appended
    to).  On a chat whose last message is [lastMsg], an [agent_chunk]
    frame appends its text to [lastMsg] when that is a streaming agent
    message and otherwise appends a new streaming agent message; on any
    chat, an [agent_response] or [agent_error] frame appends a new message
    that is not streaming and clears the processing flag. *)
Theorem agent_events_update_chat (now : Z) (data : WsData) (st : AppState) :
  (∀ welcome, reachable welcome st →
     ∃ earlier lastMsg, messages st = earlier ++ [lastMsg])
  ∧ (data_type data = "agent_chunk" →
     ∀ earlier lastMsg, messages st = earlier ++ [lastMsg] →
       onmessage now data st =
         Handled (setMessages st
                    (if bool_decide (role lastMsg = "agent") && isStreaming lastMsg
                     then earlier ++ [mkMessage (msg_id lastMsg) "agent"
                                        (text lastMsg +:+ text_of (data_text data)) true]
                     else messages st ++ [mkMessage now "agent"
                                            (text_of (data_text data)) true]))
                 [])
  ∧ (data_type data = "agent_response" ∨ data_type data = "agent_error" →
     onmessage now data st =
       Handled (setIsProcessing
                  (setMessages st
                     (messages st ++ [mkMessage now "agent"
                                        (text_of (data_text data)) false]))
                  false)
               []).
Proof.
  split; [| split].
  - intros welcome [Hm _]%reachable_invariant.
    destruct (messages st) as [| m ms] using rev_ind; [done | by eexists _, _].
  - intros Hty earlier lastMsg Hmsgs. unfold onmessage, agent_chunk_update.
    rewrite Hty, Hmsgs, last_snoc. cbn [bool_decide andb].
    rewrite length_app. cbn [length].
    replace (length earlier + 1 - 1) with (length earlier) by lia.
    rewrite take_app_length.
    destruct (bool_decide (role lastMsg = "agent")) eqn:Hrole; cbn [andb]; [| done].
    destruct (isStreaming lastMsg) eqn:Hs; [| done].
    apply bool_decide_eq_true_1 in Hrole. by rewrite Hrole.
  - intros [Hty | Hty]; unfold onmessage, agent_final_update; by rewrite Hty.
Qed.

(** X13.  In every state the handlers can produce, no file has two
    tabs. *)
Theorem reachable_tabs_distinct (welcome : string) (st : AppState) :
  reachable welcome st → NoDup (openFiles st).
Proof. intros H. by apply reachable_invariant in H as [_ ?]. Qed.

(** X14.  In every state the handlers can produce, the chat holds at
    least one message, so no inbound frame makes the handler throw. *)
Theorem reachable_chat_never_throws (welcome : string) (st : AppState) :
  reachable welcome st →
  messages st ≠ [] ∧ ∀ now data, onmessage now data st ≠ Threw.
Proof.
  intros H. apply reachable_invariant in H as [Hm _].
  split; [done|]. intros now data. by apply onmessage_no_throw.
Qed.

End Reachable.

(* ===================================================================== *)
(** ** Streaming: a run of chunks becomes one message *)
(* ===================================================================== *)

Lemma onmessages_streaming frames : ∀ st earlier now0 sofar,
  Forall (λ frame, data_type frame.2 = "agent_chunk") frames →
  messages st = earlier ++ [mkMessage now0 "agent" sofar true] →
  onmessages frames st =
    Handled (setMessages st
               (earlier ++ [mkMessage now0 "agent" (sofar +:+ chunks_text frames) true]))
            [].
Proof.
  induction frames as [| [now data] rest IH]; intros st earlier now0 sofar Hall Hmsgs.
  - cbn. by rewrite string_app_nil_r, <- Hmsgs, setMessages_same.
  - apply Forall_cons in Hall as [Hty Hrest]. cbn [snd] in Hty.
    cbn [onmessages]. rewrite (onmessage_agent_chunk _ _ _ _ _ Hty Hmsgs).
    cbn [role isStreaming bool_decide andb msg_id text].
    rewrite bool_decide_eq_true_2 by done. cbn [andb].
    rewrite (IH _ earlier now0 (sofar +:+ text_of (data_text data)) Hrest) by done.
    cbn [app]. rewrite setMessages_twice.
    cbn [chunks_text foldr snd]. by rewrite string_app_assoc.
Qed.

(** X15.  When the last message is not a streaming agent message, a run
    of [agent_chunk] frames adds exactly one message to the chat: a
    streaming agent message, stamped with the time of the first chunk,
    whose text is the texts of the chunks joined in order of arrival.
    Nothing else changes and no request is started. *)
Theorem agent_chunks_coalesce
    (st : AppState) (earlier : list Message) (lastMsg : Message)
    (now : Z) (data : WsData) (rest : list (Z * WsData)) :
  messages st = earlier ++ [lastMsg] →
  bool_decide (role lastMsg = "agent") && isStreaming lastMsg = false →
  Forall (λ frame, data_type frame.2 = "agent_chunk") ((now, data) :: rest) →
  onmessages ((now, data) :: rest) st =
    Handled (setMessages st
               (messages st ++
                [mkMessage now "agent" (chunks_text ((now, data) :: rest)) true]))
            [].
Proof.
  intros Hmsgs Hlast Hall. apply Forall_cons in Hall as [Hty Hrest]. cbn [snd] in Hty.
  cbn [onmessages]. rewrite (onmessage_agent_chunk _ _ _ _ _ Hty Hmsgs), Hlast.
  rewrite (onmessages_streaming rest _ (messages st) now (text_of (data_text data)) Hrest)
    by done.
  by rewrite setMessages_twice.
Qed.

(* ===================================================================== *)
(** ** Edits, saves and refreshes together *)
(* ===================================================================== *)

Lemma mergeTreeContent_lookup oldNodes newNodes k c :
  traverseOld ∅ oldNodes !! k = Some c → k ∈ ids newNodes →
  ∃ merged, findNodeById (mergeTreeContent oldNodes newNodes) k = Some merged
            ∧ content merged = Some c.
Proof.
  intros Hmap Hnew.
  destruct (findNodeById (mergeTreeContent oldNodes newNodes) k) as [merged |] eqn:E.
  - exists merged. split; [done|]. apply findNodeById_Some in E as [Hin Hid].
    unfold mergeTreeContent in Hin. rewrite nodes_applyContent in Hin.
    apply list_elem_of_fmap in Hin as (n0 & -> & _).
    rewrite applyContent_node_id in Hid.
    by rewrite applyContent_node_content, Hid, Hmap.
  - apply findNodeById_None in E. by rewrite ids_mergeTreeContent in E.
Qed.

Lemma ids_updateFileContent tree fileId c :
  ids (updateFileContent tree fileId c) = ids tree.
Proof. by rewrite <- ids_shape, shape_updateFileContent, ids_shape. Qed.

(** X16.  An edit survives a refresh: after the editor changed a file of a
    tree with unique ids, a tree refresh whose new shape still has the
    file's id returns a tree in which the file holds the edited text. *)
Theorem edit_survives_refresh
    (st : AppState) (f : Node) (newContent : string) (newTree : list Node) :
  unique_ids (files st) → f ∈ nodes (files st) → type f = file →
  id f ∈ ids newTree →
  ∃ merged,
    findNodeById
      (files (fetchFileTree_resolve (TreeShape newTree)
                (handleFileContentChange (id f) newContent st)).1)
      (id f) = Some merged
    ∧ content merged = Some newContent.
Proof.
  intros Hu Hf Hty Hnew.
  unfold fetchFileTree_resolve, refresh_update, handleFileContentChange. cbn.
  apply mergeTreeContent_lookup; [| done].
  set (edited := updateFileContent (files st) (id f) (Some newContent)).
  assert (findNodeById edited (id f) = Some (with_content f (Some newContent))) as Hfound.
  { unfold edited. rewrite findNodeById_updateFileContent.
    by rewrite findNodeById_unique_node. }
  apply findNodeById_Some in Hfound as [Hin _].
  rewrite traverseOld_nodes.
  change (id f) with (id (with_content f (Some newContent))).
  apply record_content_unique; [| done | done | done].
  unfold edited. fold (ids (updateFileContent (files st) (id f) (Some newContent))).
  by rewrite ids_updateFileContent.
Qed.

Lemma updateFileContent_keeps_files tree fileId c f :
  f ∈ nodes tree → type f = file →
  id f ∈ JsMap.keys (flattenFiles (updateFileContent tree fileId c) JsMap.empty).
Proof.
  intros Hf Hty. rewrite flattenFiles_nodes. apply index_file_keys. right.
  apply list_elem_of_lookup in Hf as [i Hi].
  destruct (Forall2_lookup_l _ _ _ i f (updateFileContent_related tree fileId c) Hi)
    as (f' & Hi' & (Hid & _ & Hty' & _) & _).
  exists f'. split; [by eapply list_elem_of_lookup_2|]. split; congruence.
Qed.

(** X17.  An edit shields the file from the refresh: once the editor has
    changed a file of the tree, a [file_change] frame starts no content
    fetch for it, and no timer armed by a tree refresh fetches it. *)
Theorem edit_is_not_refetched
    (st : AppState) (f : Node) (newContent : string) :
  f ∈ nodes (files st) → type f = file →
  (∀ now data st' calls,
     data_type data = "system_event" → data_event data = Some "file_change" →
     onmessage now data (handleFileContentChange (id f) newContent st)
       = Handled st' calls →
     FetchFileContent (id f) ∉ calls)
  ∧ (∀ resp t st1,
       t ∈ (fetchFileTree_resolve resp
              (handleFileContentChange (id f) newContent st)).2 →
       FetchFileContent (id f) ∉ (run_timer t st1).2).
Proof.
  intros Hf Hty. split.
  - intros now data st' calls Hdt Hev. unfold onmessage. rewrite Hdt, Hev.
    rewrite !bool_decide_eq_true_2 by done. cbn [andb].
    intros [= _ <-]. rewrite refresh_open_files_filter, not_elem_of_cons.
    split; [done|].
    intros (fid & [= <-] & [Hne _]%list_elem_of_filter)%list_elem_of_fmap.
    by apply Hne.
  - intros resp t st1 Ht.
    apply (refresh_timers_skip_pending
             (handleFileContentChange (id f) newContent st) st1 resp
             (mkSaveData (id f) newContent) t); [done | | done].
    right. cbn. by apply updateFileContent_keeps_files.
Qed.

(** X18.  When no save is pending, and so after a save was acknowledged,
    a [file_change] frame re-fetches every open file, the saved one
    included; after a save that failed the pending file stays excluded. *)
Theorem save_outcome_decides_refetch (now : Z) (data : WsData) (st : AppState) :
  data_type data = "system_event" → data_event data = Some "file_change" →
  onmessage now data (save_settled true st)
    = Handled (save_settled true st)
        (FetchFileTree :: (FetchFileContent <$> openFiles st))
  ∧ (∀ pending, fileToSaveRef st = Some pending →
       onmessage now data (save_settled false st)
         = Handled st
             (FetchFileTree ::
              (FetchFileContent <$> filter (λ fid, fid ≠ save_id pending) (openFiles st)))).
Proof.
  intros Hdt Hev. split.
  - unfold onmessage. rewrite Hdt, Hev. rewrite !bool_decide_eq_true_2 by done.
    cbn [andb save_settled setFileToSave fileToSaveRef openFiles fmap option_fmap option_map].
    rewrite refresh_open_files_filter. do 3 f_equal.
    induction (openFiles st) as [| x r IH]; [done|].
    rewrite filter_cons, decide_True by done. by rewrite IH.
  - intros pending Hp. unfold onmessage, save_settled. rewrite Hdt, Hev, Hp.
    rewrite !bool_decide_eq_true_2 by done. cbn [andb fmap option_fmap option_map].
    rewrite refresh_open_files_filter. do 3 f_equal.
    apply list_filter_iff. intros fid.
    split; [intros H ->; by apply H | intros H [= ->]; by apply H].
Qed.

(** X19.  A tree refresh arms at most one timer, and a timer it arms
    starts exactly one content fetch, for the id of a file node of the new
    tree. *)
Theorem refresh_fetches_existing_file
    (st st1 : AppState) (newTree : list Node) (t : Timer) :
  t ∈ (fetchFileTree_resolve (TreeShape newTree) st).2 →
  (length (fetchFileTree_resolve (TreeShape newTree) st).2 ≤ 1)%nat
  ∧ ∃ node, node ∈ nodes newTree ∧ type node = file
            ∧ (run_timer t st1).2 = [FetchFileContent (id node)].
Proof.
  unfold fetchFileTree_resolve, refresh_update. cbn [snd].
  rewrite collect_newFileIds_flatten.
  destruct (0 <? length (files st))%nat.
  - destruct (new_file_ids (files st) newTree) as [| k0 kr] eqn:Hids;
      cbn [length Nat.ltb Nat.leb]; [by intros ?%elem_of_nil|].
    intros ->%list_elem_of_singleton. split; [done|].
    cbn [run_timer]. destruct (last (k0 :: kr)) as [lastNewId |] eqn:Hlast.
    + apply last_Some_elem_of in Hlast. rewrite <- Hids in Hlast.
      unfold new_file_ids in Hlast. apply list_elem_of_filter in Hlast as [_ Hkey].
      rewrite flattenFiles_nodes in Hkey.
      apply index_file_keys in Hkey as [Hkey | (node & ? & ? & <-)];
        [by apply elem_of_nil in Hkey|].
      by exists node.
    + by apply last_None in Hlast.
  - destruct (activeFileId st) as [activeId |]; [| by intros ?%elem_of_nil].
    destruct (_ && _) eqn:Hguard; [| by intros ?%elem_of_nil].
    intros ->%list_elem_of_singleton. split; [done|].
    apply andb_true_iff in Hguard as [_ Hhas].
    apply JsMap_has_keys in Hhas. rewrite flattenFiles_nodes in Hhas.
    apply index_file_keys in Hhas as [Hkey | (node & ? & ? & <-)];
      [by apply elem_of_nil in Hkey|].
    by exists node.
Qed.

(* ===================================================================== *)
(** ** FileTreeItem.jsx: which folders open themselves *)
(* ===================================================================== *)

Lemma hasSelectedChild_unfold selectedId node :
  hasSelectedChild selectedId node =
    bool_decide (Some (id node) = selectedId)
    || existsb (hasSelectedChild selectedId) (children_or_empty node).
Proof.
  destruct node as [i nm ty [ch|] ct op]; cbn; case_bool_decide; try done.
Qed.

Lemma hasSelectedChild_subtree selectedId node :
  hasSelectedChild selectedId node = true ↔
  ∃ n, n ∈ subtree node ∧ Some (id n) = selectedId.
Proof.
  induction node as [i nm ty ct op | i nm ty ch ct op IH] using Node_forall_ind;
    rewrite hasSelectedChild_unfold, subtree_unfold, orb_true_iff, bool_decide_eq_true;
    cbn [id children children_or_empty].
  - split.
    + intros [? | ?]; [| done]. eexists. split; [left | done].
    + intros (n & [-> | Hn]%elem_of_cons & ?); [by left|]. by apply elem_of_nil in Hn.
  - rewrite existsb_exists. split.
    + intros [? | (x & Hx%list_elem_of_In & Hsel)].
      * eexists. split; [left | done].
      * rewrite Forall_forall in IH. apply (IH x Hx) in Hsel as (n & Hn & ?).
        exists n. split; [| done]. right. apply elem_of_nodes. eauto.
    + intros (n & [-> | (x & Hx & Hn)%elem_of_nodes]%elem_of_cons & Hsel); [by left|].
      right. exists x. split; [by apply list_elem_of_In|].
      rewrite Forall_forall in IH. apply (IH x Hx). eauto.
Qed.

(** X20.  A tree item opens itself exactly when it has a [children]
    array, is not itself the selected node, and the selected id is the id
    of a node somewhere below it. *)
Theorem reveals_selection_iff_below (selectedId : option string) (item : Node) :
  reveals_selection selectedId item = true ↔
  is_Some (children item)
  ∧ Some (id item) ≠ selectedId
  ∧ ∃ n, n ∈ descendants item ∧ Some (id n) = selectedId.
Proof.
  unfold reveals_selection, descendants.
  destruct (children item) as [ch |] eqn:Hch.
  - rewrite andb_true_iff, negb_true_iff, bool_decide_eq_false.
    rewrite hasSelectedChild_subtree, subtree_unfold.
    unfold children_or_empty. rewrite Hch. split.
    + intros [(n & [-> | Hn]%elem_of_cons & Hsel) Hne]; [done|]. eauto.
    + intros (_ & Hne & n & Hn & Hsel). split; [| done].
      exists n. split; [by right | done].
  - split; [done | by intros [[? ?] _]].
Qed.

(* ===================================================================== *)
(** ** handleCreateItem: where the new item goes *)
(* ===================================================================== *)

Lemma prefix_char c s :
  String.prefix (String c EmptyString) s =
    match s with
    | EmptyString => false
    | String a _ => bool_decide (c = a)
    end.
Proof.
  destruct s as [| a r]; [done|]. cbn.
  destruct (ascii_dec c a) as [-> | Hne].
  - rewrite bool_decide_eq_true_2 by done. by destruct r.
  - by rewrite bool_decide_eq_false_2.
Qed.

Lemma lastIndexOf_from_absent c base : ∀ pos,
  includes base (String c EmptyString) = false →
  lastIndexOf_from pos base (String c EmptyString) = (-1)%Z.
Proof.
  induction base as [| a r IH]; intros pos Hinc; [done|].
  cbn [includes] in Hinc. apply orb_false_elim in Hinc as [Hpre Hrest].
  cbn [lastIndexOf_from]. rewrite (IH _ Hrest). cbn [Z.leb Z.compare].
  by rewrite Hpre.
Qed.

Lemma lastIndexOf_from_last c dir base : ∀ pos,
  (0 ≤ pos)%Z →
  includes base (String c EmptyString) = false →
  lastIndexOf_from pos (dir +:+ String c base) (String c EmptyString)
  = (pos + Z.of_nat (String.length dir))%Z.
Proof.
  induction dir as [| a d IH]; intros pos Hpos Hinc.
  - change (EmptyString +:+ String c base) with (String c base).
    cbn [lastIndexOf_from]. rewrite (lastIndexOf_from_absent _ _ _ Hinc).
    cbn [Z.leb Z.compare]. rewrite prefix_char, bool_decide_eq_true_2 by done.
    cbn. lia.
  - rewrite string_app_cons. cbn [lastIndexOf_from].
    rewrite IH by (lia || done).
    destruct (0 <=? _)%Z eqn:Hle; [cbn [String.length]; lia|].
    apply Z.leb_gt in Hle. lia.
Qed.

Lemma string_take_app dir rest :
  string_take (String.length dir) (dir +:+ rest) = dir.
Proof.
  induction dir as [| a d IH]; [by destruct rest|].
  rewrite string_app_cons. cbn [String.length string_take]. by rewrite IH.
Qed.

Lemma separator_of_char path :
  separator_of path = String "\" EmptyString ∨ separator_of path = String "/" EmptyString.
Proof. unfold separator_of. destruct (includes path _); auto. Qed.

Section Forms.
Context `{builtins : StringBuiltins}.

(** X21.  When a file is selected whose id is [dir], its separator and a
    last part without that separator, the new item is created in [dir]:
    the path posted is [dir], the separator that [dir] itself calls for,
    and the new name; with an empty [dir] it is the bare name. *)
Theorem create_next_to_selected_file
    (files : list Node) (sel : string) (node : Node)
    (dir base newItemName : string) (newItemType : NodeType) :
  findNodeById files sel = Some node → type node = file →
  id node = dir +:+ separator_of (id node) +:+ base →
  includes base (separator_of (id node)) = false →
  trim newItemName ≠ EmptyString →
  handleCreateItem files (Some sel) newItemName newItemType =
    Some (if bool_decide (dir = EmptyString) then newItemName
          else dir +:+ separator_of dir +:+ newItemName,
          newItemType).
Proof.
  intros Hfind Hty Hid Hbase Hname. unfold handleCreateItem.
  rewrite bool_decide_eq_false_2 by done. do 2 f_equal.
  assert (create_basePath files (Some sel) = dir) as ->; [| done].
  unfold create_basePath. rewrite Hfind, Hty.
  destruct (findNodeById_Some _ _ _ Hfind) as [_ Hsel].
  rewrite bool_decide_eq_false_2.
  2:{ rewrite <- Hsel, Hid.
      destruct (separator_of_char (id node)) as [-> | ->]; by destruct dir. }
  cbv zeta. unfold lastIndexOf, substring_to.
  destruct (separator_of_char (id node)) as [Hsep | Hsep];
    rewrite Hsep in Hid, Hbase |- *; rewrite Hid at 1 2;
    change (String ?c EmptyString +:+ base) with (String c base);
    rewrite lastIndexOf_from_last by done;
    rewrite Z.add_0_l, Nat2Z.id; apply string_take_app.
Qed.

(** X22.  The new item is created at the root, under its bare name, when
    nothing is selected, when the selected id is not in the tree, and when
    the selected file's id has no separator in it. *)
Theorem create_at_root
    (files : list Node) (newItemName : string) (newItemType : NodeType) :
  trim newItemName ≠ EmptyString →
  handleCreateItem files None newItemName newItemType
    = Some (newItemName, newItemType)
  ∧ (∀ sel, findNodeById files sel = None →
       handleCreateItem files (Some sel) newItemName newItemType
         = Some (newItemName, newItemType))
  ∧ (∀ sel node, findNodeById files sel = Some node → type node = file →
       includes (id node) "/" = false → includes (id node) "\" = false →
       handleCreateItem files (Some sel) newItemName newItemType
         = Some (newItemName, newItemType)).
Proof.
  intros Hname. unfold handleCreateItem. rewrite bool_decide_eq_false_2 by done.
  split; [done|]. split.
  - intros sel Hnone. unfold create_basePath. rewrite Hnone. by case_bool_decide.
  - intros sel node Hfind Hty Hslash Hback. unfold create_basePath.
    rewrite Hfind, Hty. case_bool_decide; [done|].
    cbv zeta. unfold separator_of. rewrite Hback.
    unfold lastIndexOf. by rewrite lastIndexOf_from_absent.
Qed.

Lemma ascii_trimStart_empty s :
  ascii_trimStart s = EmptyString ↔ all_whitespace s = true.
Proof.
  induction s as [| c r IH]; [done|]. cbn.
  destruct (is_whitespace c); [apply IH | done].
Qed.

Lemma ascii_trimEnd_empty s :
  ascii_trimEnd s = EmptyString ↔ all_whitespace s = true.
Proof.
  induction s as [| c r IH]; [done|]. cbn.
  destruct (ascii_trimEnd r) eqn:E.
  - destruct (is_whitespace c); cbn; [| done].
    split; [intros _; by apply IH | done].
  - split; [done|]. intros [_ Hr]%andb_true_iff. by apply IH in Hr.
Qed.

Lemma ascii_trimStart_whitespace s :
  all_whitespace (ascii_trimStart s) = true → all_whitespace s = true.
Proof.
  induction s as [| c r IH]; [done|]. cbn.
  destruct (is_whitespace c) eqn:Hc; [apply IH|]. cbn. by rewrite Hc.
Qed.

Lemma ascii_trim_empty s : ascii_trim s = EmptyString ↔ all_whitespace s = true.
Proof.
  unfold ascii_trim. rewrite ascii_trimEnd_empty. split.
  - apply ascii_trimStart_whitespace.
  - intros H. apply ascii_trimStart_empty in H. by rewrite H.
Qed.

(** On ASCII input [trim] leaves nothing exactly when every character is
    one of 9-13 and 32. *)
Lemma trim_empty s :
  ascii_only s = true → (trim s = EmptyString ↔ all_whitespace s = true).
Proof. intros Hs. rewrite trim_on_ascii by done. apply ascii_trim_empty. Qed.

(** X23.  Blank input is ignored, and only blank input.  For an input of
    ASCII characters: a create request is posted unless the name is made
    of white space only (the characters 9-13 and 32), whatever is
    selected; a chat submission leaves the state as it was exactly when
    the input is made of white space only, and then sends nothing. *)
Theorem blank_input_is_ignored
    (files : list Node) (selectedId : option string) (text : string)
    (newItemType : NodeType) (now nowError : Z) (wsOpen : bool) (st : AppState) :
  ascii_only text = true →
  (handleCreateItem files selectedId text newItemType = None
   ↔ all_whitespace text = true)
  ∧ ((handleChatSubmit now nowError text wsOpen st).1 = st
     ↔ all_whitespace text = true)
  ∧ (all_whitespace text = true →
     (handleChatSubmit now nowError text wsOpen st).2 = []).
Proof.
  intros Hascii. split; [| split].
  - unfold handleCreateItem. rewrite <- trim_empty by done. by case_bool_decide.
  - rewrite <- trim_empty by done. unfold handleChatSubmit.
    case_bool_decide as Hblank.
    + done.
    + split; [| done]. intros Hsame. exfalso.
      apply (f_equal (λ s, length (messages s))) in Hsame.
      destruct wsOpen; cbn in Hsame; rewrite !length_app in Hsame; cbn in Hsame; lia.
  - intros Hw. apply trim_empty in Hw; [| done].
    unfold handleChatSubmit. by rewrite bool_decide_eq_true_2.
Qed.

End Forms.

(* ===================================================================== *)
(** ** getFileIcon *)
(* ===================================================================== *)

Lemma split_char_nonempty sep s : split_char sep s ≠ [].
Proof.
  destruct s as [| c r]; [done|]. cbn. case_bool_decide; [done|].
  by destruct (split_char sep r).
Qed.

Lemma split_char_none sep s :
  includes s (String sep EmptyString) = false → split_char sep s = [s].
Proof.
  induction s as [| c r IH]; [done|]. cbn [includes].
  intros [Hpre Hrest]%orb_false_elim. rewrite prefix_char in Hpre.
  apply bool_decide_eq_false in Hpre. cbn [split_char].
  rewrite bool_decide_eq_false_2 by congruence. by rewrite IH.
Qed.

Lemma last_split_char_after sep stem rest :
  last (split_char sep (stem +:+ String sep rest)) = last (split_char sep rest).
Proof.
  induction stem as [| c r IH].
  - change (EmptyString +:+ String sep rest) with (String sep rest).
    cbn [split_char]. rewrite bool_decide_eq_true_2 by done.
    rewrite last_cons. destruct (last (split_char sep rest)) eqn:E; [done|].
    apply last_None in E. by apply split_char_nonempty in E.
  - rewrite string_app_cons. cbn [split_char]. case_bool_decide.
    + rewrite last_cons, IH. destruct (last (split_char sep rest)) eqn:E; [done|].
      apply last_None in E. by apply split_char_nonempty in E.
    + rewrite <- IH. destruct (split_char sep (r +:+ String sep rest)) as [| p ps] eqn:E.
      * by apply split_char_nonempty in E.
      * destruct ps; [| done].
        exfalso. clear IH. revert p E. induction r as [| a r' IHr]; intros p E.
        -- change (EmptyString +:+ String sep rest) with (String sep rest) in E.
           cbn [split_char] in E. rewrite bool_decide_eq_true_2 in E by done.
           injection E as _ E. by apply split_char_nonempty in E.
        -- rewrite string_app_cons in E. cbn [split_char] in E.
           case_bool_decide.
           ++ injection E as _ E. by apply split_char_nonempty in E.
           ++ destruct (split_char sep (r' +:+ String sep rest)) as [| q qs] eqn:E';
                [by apply split_char_nonempty in E'|].
              injection E as _ ->. by apply (IHr q).
Qed.

Section Icons.
Context `{builtins : StringBuiltins}.

(** X24.  The icon of a file depends only on what follows the last dot of
    its name, and on that case-insensitively: two names whose last
    extensions differ at most in case get the same icon, whatever comes
    before the dot. *)
Theorem getFileIcon_by_last_extension (stem1 stem2 ext1 ext2 : string) :
  includes ext1 "." = false → includes ext2 "." = false →
  toLowerCase ext1 = toLowerCase ext2 →
  getFileIcon (stem1 +:+ "." +:+ ext1) = getFileIcon (stem2 +:+ "." +:+ ext2).
Proof.
  intros H1 H2 Hlow.
  assert (∀ stem ext, stem +:+ "." +:+ ext ≠ EmptyString) as Hne
    by (by intros [] ?).
  unfold getFileIcon.
  rewrite (bool_decide_eq_false_2 _ (Hne stem1 ext1)).
  rewrite (bool_decide_eq_false_2 _ (Hne stem2 ext2)).
  change ("." +:+ ext1) with (String "." ext1).
  change ("." +:+ ext2) with (String "." ext2).
  rewrite !last_split_char_after, !split_char_none by done.
  cbn [last default from_option Datatypes.id]. by rewrite Hlow.
Qed.

End Icons.

(* ===================================================================== *)
(** ** Tabs: opening, closing, and refreshes that bring nothing new *)
(* ===================================================================== *)

Lemma filter_ne_absent (l : list string) k :
  k ∉ l → filter (λ fid, fid ≠ k) l = l.
Proof.
  induction l as [| x r IH]; [done|].
  rewrite not_elem_of_cons. intros [Hne Hr].
  rewrite filter_cons, decide_True by done. by rewrite IH.
Qed.

(** X25.  Opening a file that had no tab and closing it again restores
    the tabs as they were; the file that becomes active is the last tab,
    not the one that was active before. *)
Theorem select_then_close (node : Node) (st : AppState) :
  type node = file → id node ∉ openFiles st →
  openFiles (handleCloseFile (id node) (handleNodeSelect node st).1) = openFiles st
  ∧ activeFileId (handleCloseFile (id node) (handleNodeSelect node st).1)
    = last (openFiles st).
Proof.
  intros Hty Hnew. unfold handleNodeSelect. rewrite Hty.
  rewrite bool_decide_eq_false_2 by done. cbn [fst].
  unfold handleCloseFile.
  cbn [setActiveFileId setOpenFiles openFiles activeFileId].
  rewrite bool_decide_eq_true_2 by done.
  cbn [setActiveFileId setOpenFiles openFiles activeFileId].
  rewrite filter_app, filter_ne_absent by done.
  rewrite filter_cons, decide_False by (by intros ?).
  rewrite filter_nil, app_nil_r. done.
Qed.

(** X26.  On a refresh with a non-empty old tree, a timer is armed
    exactly when the new tree has a file whose id is the id of no file of
    the old tree: a refresh that brings no new file opens no tab and
    fetches nothing. *)
Theorem refresh_arms_timer_iff_new_file (st : AppState) (newTree : list Node) :
  files st ≠ [] →
  ((fetchFileTree_resolve (TreeShape newTree) st).2 ≠ []) ↔
  (∃ node, node ∈ nodes newTree ∧ type node = file
           ∧ ∀ old, old ∈ nodes (files st) → type old = file → id old ≠ id node).
Proof.
  intros Hne. unfold fetchFileTree_resolve, refresh_update. cbn [snd].
  rewrite collect_newFileIds_flatten.
  destruct (files st) as [| f0 fr] eqn:Hfiles; [done|].
  cbn [length Nat.ltb Nat.leb]. rewrite <- Hfiles. clear Hfiles Hne f0 fr.
  assert (∀ k, k ∈ new_file_ids (files st) newTree ↔
            (∃ node, node ∈ nodes newTree ∧ type node = file ∧ id node = k)
            ∧ ¬ ∃ old, old ∈ nodes (files st) ∧ type old = file ∧ id old = k) as Hmem.
  { intros k. unfold new_file_ids. rewrite list_elem_of_filter, !flattenFiles_nodes.
    rewrite !index_file_keys. split.
    - intros [Hold [Hnil | Hnew]]; [by apply elem_of_nil in Hnil|].
      split; [done|]. intros Hex. apply Hold. by right.
    - intros [Hnew Hold]. split; [| by right].
      intros [Hnil | Hex]; [by apply elem_of_nil in Hnil | by apply Hold]. }
  destruct (new_file_ids (files st) newTree) as [| k0 kr] eqn:Hids;
    cbn [length Nat.ltb Nat.leb].
  - split; [done|]. intros (node & Hn & Hty & Hfresh). exfalso.
    apply (not_elem_of_nil (id node)). apply Hmem. split; [eauto|].
    intros (old & Ho & Hoty & Hoid). by apply (Hfresh old).
  - split; [| done]. intros _.
    destruct (proj1 (Hmem k0) (list_elem_of_here _ _)) as [(node & Hn & Hty & <-) Hold].
    exists node. split; [done|]. split; [done|].
    intros old Ho Hoty Hoid. apply Hold. eauto.
Qed.

(* ===================================================================== *)
(** ** The further theorems at work on the sample data *)
(* ===================================================================== *)

Ltac by_computation := apply (bool_decide_unpack _); vm_compute; exact I.

Section MoreSampleRuns.
#[local] Existing Instance ascii_builtins.

Lemma findNodeById_finds_node_witness :
  findNodeById tree_a_loaded "/a/y.js" = Some file_y.
Proof.
  apply (findNodeById_finds_node tree_a_loaded file_y).
  - by_computation.
  - vm_compute. right. right. left.
Defined.

Lemma updateFileContent_commute_witness :
  updateFileContent (updateFileContent tree_a_loaded "/a/x.js" (Some "1")) "/a/y.js" (Some "2")
  = updateFileContent (updateFileContent tree_a_loaded "/a/y.js" (Some "2")) "/a/x.js" (Some "1").
Proof.
  apply (updateFileContent_commute tree_a_loaded "/a/x.js" "/a/y.js"). discriminate.
Defined.

Lemma mergeTreeContent_same_shape_witness :
  mergeTreeContent tree_a_loaded (shape tree_a_loaded) = tree_a_loaded.
Proof.
  apply (mergeTreeContent_same_shape tree_a_loaded).
  - by_computation.
  - vm_compute. repeat constructor.
Defined.

Lemma flattenFiles_in_tree_order_witness :
  flattenFiles tree_a_loaded JsMap.empty = [("/a/x.js", file_x); ("/a/y.js", file_y)].
Proof.
  rewrite (flattenFiles_in_tree_order tree_a_loaded); [reflexivity|]. by_computation.
Defined.

Lemma filterNodes_shows_matching_files_witness :
  filter (λ n, type n = file) (nodes (filterNodes tree_a_loaded "Y")) = [file_y].
Proof.
  rewrite (filterNodes_shows_matching_files tree_a_loaded "Y"); [reflexivity|].
  vm_compute. repeat constructor.
Defined.

Lemma agent_events_update_chat_witness :
  onmessage 7 chunk_frame state_streaming
  = Handled (setMessages state_streaming
               [mkMessage 1 "agent" "Welcome" false; mkMessage 5 "user" "hi" false;
                mkMessage 6 "agent" "HeHel" true]) [].
Proof.
  exact (proj1 (proj2 (agent_events_update_chat 7 chunk_frame state_streaming)) eq_refl
           [mkMessage 1 "agent" "Welcome" false; mkMessage 5 "user" "hi" false]
           (mkMessage 6 "agent" "He" true) eq_refl).
Defined.

Lemma reachable_tabs_distinct_witness :
  NoDup (openFiles (handleNodeSelect file_x
                      (handleNodeSelect file_x (initial_state "Welcome")).1).1).
Proof.
  apply (reachable_tabs_distinct "Welcome").
  apply reach_select, reach_select, reach_initial.
Defined.

Lemma reachable_chat_never_throws_witness :
  messages (handleStopResponse 3 true (initial_state "Welcome")).1 ≠ []
  ∧ ∀ now data,
      onmessage now data (handleStopResponse 3 true (initial_state "Welcome")).1 ≠ Threw.
Proof.
  apply (reachable_chat_never_throws "Welcome").
  apply reach_stop, reach_initial.
Defined.

Lemma agent_chunks_coalesce_witness :
  onmessages [(7, chunk_frame); (8, chunk_frame_2)]%Z state_loaded
  = Handled (setMessages state_loaded
               [mkMessage 1 "agent" "Welcome" false; mkMessage 5 "user" "hi" false;
                mkMessage 7 "agent" "Hello" true]) [].
Proof.
  apply (agent_chunks_coalesce state_loaded
           [mkMessage 1 "agent" "Welcome" false] (mkMessage 5 "user" "hi" false)).
  - reflexivity.
  - reflexivity.
  - repeat constructor.
Defined.

Lemma edit_survives_refresh_witness :
  ∃ merged,
    findNodeById
      (files (fetchFileTree_resolve (TreeShape tree_a_grown)
                (handleFileContentChange "/a/x.js" "let x = 2" state_loaded)).1)
      "/a/x.js" = Some merged
    ∧ content merged = Some "let x = 2".
Proof.
  apply (edit_survives_refresh state_loaded file_x "let x = 2" tree_a_grown).
  - by_computation.
  - vm_compute. right. left.
  - reflexivity.
  - by_computation.
Defined.

Lemma edit_is_not_refetched_witness :
  (FetchFileContent "/a/x.js" ∉ [FetchFileTree; FetchFileContent "/a/y.js"])
  ∧ onmessage 9 file_change_frame
      (handleFileContentChange "/a/x.js" "let x = 2" state_loaded)
    = Handled (handleFileContentChange "/a/x.js" "let x = 2" state_loaded)
              [FetchFileTree; FetchFileContent "/a/y.js"].
Proof.
  assert (file_x ∈ nodes (files state_loaded)) as Hin by (vm_compute; right; left).
  destruct (edit_is_not_refetched state_loaded file_x "let x = 2" Hin eq_refl)
    as [Hframe _].
  split; [| reflexivity].
  exact (Hframe 9%Z file_change_frame _ _ eq_refl eq_refl eq_refl).
Defined.

Lemma save_outcome_decides_refetch_witness :
  onmessage 9 file_change_frame (save_settled true state_editing)
  = Handled (save_settled true state_editing)
      [FetchFileTree; FetchFileContent "/a/x.js"; FetchFileContent "/a/y.js"]
  ∧ onmessage 9 file_change_frame (save_settled false state_editing)
    = Handled state_editing [FetchFileTree; FetchFileContent "/a/y.js"].
Proof.
  destruct (save_outcome_decides_refetch 9 file_change_frame state_editing
              eq_refl eq_refl) as [Hok Hfailed].
  split; [exact Hok|].
  exact (Hfailed (mkSaveData "/a/x.js" "let x = 2") eq_refl).
Defined.

Lemma refresh_fetches_existing_file_witness :
  (length (fetchFileTree_resolve (TreeShape tree_a_grown) state_editing).2 ≤ 1)%nat
  ∧ ∃ node, node ∈ nodes tree_a_grown ∧ type node = file
            ∧ (run_timer (OpenNewFiles ["/a/y.js"]) state_loaded).2
              = [FetchFileContent (id node)].
Proof.
  apply (refresh_fetches_existing_file state_editing state_loaded tree_a_grown
           (OpenNewFiles ["/a/y.js"])).
  vm_compute. left.
Defined.

Lemma create_next_to_selected_file_witness :
  handleCreateItem tree_windows (Some "src\util\a.js") "b.js" file
  = Some ("src\util\b.js", file).
Proof.
  apply (create_next_to_selected_file tree_windows "src\util\a.js"
           (mkNode "src\util\a.js" "a.js" file None None None)
           "src\util" "a.js" "b.js" file); try reflexivity.
  discriminate.
Defined.

Lemma create_at_root_witness :
  handleCreateItem tree_windows None "b.js" file = Some ("b.js", file)
  ∧ handleCreateItem tree_windows (Some "README.md") "b.js" file = Some ("b.js", file).
Proof.
  assert (trim "b.js" ≠ EmptyString) as Hname by discriminate.
  destruct (create_at_root tree_windows "b.js" file Hname) as (Hnone & _ & Hflat).
  split; [exact Hnone|].
  exact (Hflat "README.md" (mkNode "README.md" "README.md" file None None None)
           eq_refl eq_refl eq_refl eq_refl).
Defined.

Lemma blank_input_is_ignored_witness :
  (handleChatSubmit 5 6 "   " false state_loaded).2 = [].
Proof.
  apply (blank_input_is_ignored tree_a None "   " file 5 6 false state_loaded);
    reflexivity.
Defined.

Lemma getFileIcon_by_last_extension_witness :
  getFileIcon "README.MD" = getFileIcon "notes.v2.md".
Proof.
  apply (getFileIcon_by_last_extension "README" "notes.v2" "MD" "md"); reflexivity.
Defined.

Lemma select_then_close_witness :
  openFiles (handleCloseFile "/a/y.js" (handleNodeSelect file_y state_streaming).1)
  = ["/a/x.js"]
  ∧ activeFileId (handleCloseFile "/a/y.js" (handleNodeSelect file_y state_streaming).1)
    = Some "/a/x.js".
Proof.
  apply (select_then_close file_y state_streaming); [reflexivity|].
  by_computation.
Defined.

Lemma refresh_arms_timer_iff_new_file_witness :
  ((fetchFileTree_resolve (TreeShape tree_a_grown) state_editing).2 ≠ []) ↔
  (∃ node, node ∈ nodes tree_a_grown ∧ type node = file
           ∧ ∀ old, old ∈ nodes (files state_editing) → type old = file →
                    id old ≠ id node).
Proof.
  apply (refresh_arms_timer_iff_new_file state_editing tree_a_grown).
  vm_compute. discriminate.
Defined.

End MoreSampleRuns.

(** X27.  The handlers of the tabs keep the active file on a tab: if no
    file has two tabs and the active file has one, the same holds after a
    node is selected, a tab is clicked or closed, a new-file timer has run,
    and after a delete that comes back in the state it was called in. *)
Theorem tab_handlers_keep_active_tab
    (st : AppState) (node : Node) (fileId : string) (t : Timer)
    (selectedId : option string) (confirmed delivered : bool) :
  tabs_ok st →
  tabs_ok (handleNodeSelect node st).1
  ∧ (fileId ∈ openFiles st → tabs_ok (setActiveFileId st (Some fileId)))
  ∧ tabs_ok (handleCloseFile fileId st)
  ∧ tabs_ok (run_timer t st).1
  ∧ tabs_ok (handleDeleteItem selectedId confirmed delivered st st).1.1.
Proof.
  unfold tabs_ok. intros [Hnd Hact]. repeat split.
  - unfold handleNodeSelect. destruct (type node); [| done].
    case_bool_decide; cbn; [done|].
    apply NoDup_app. split; [done|]. split; [| apply NoDup_singleton].
    intros k Hk ->%list_elem_of_singleton. contradiction.
  - unfold handleNodeSelect. destruct (type node); [| done].
    case_bool_decide; cbn; intros a [= <-]; [done|].
    apply elem_of_app. right. left.
  - done.
  - cbn. by intros a [= <-].
  - unfold handleCloseFile. case_bool_decide; cbn; by apply NoDup_filter.
  - unfold handleCloseFile. case_bool_decide; cbn.
    + intros a Hlast. by apply last_Some_elem_of.
    + intros a Ha. apply list_elem_of_filter. split; [congruence | by apply Hact].
  - destruct t as [newFileIds | activeId]; [| done]. cbn [run_timer].
    destruct (last newFileIds); cbn; by apply open_new_files_NoDup.
  - destruct t as [newFileIds | activeId]; [| done]. cbn [run_timer].
    destruct (last newFileIds) as [lastNewId |] eqn:Hlast; cbn; [| done].
    intros a [= <-]. apply open_new_files_elem. by apply last_Some_elem_of.
  - unfold handleDeleteItem. destruct selectedId as [sel |]; [| done].
    destruct (bool_decide (sel = EmptyString)); [done|].
    destruct confirmed; cbn [negb]; [| done].
    destruct delivered; cbn [negb fst]; [| done].
    unfold close_deleted. case_bool_decide; [| done].
    case_bool_decide; cbn; by apply NoDup_filter.
  - unfold handleDeleteItem. destruct selectedId as [sel |]; [| done].
    destruct (bool_decide (sel = EmptyString)); [done|].
    destruct confirmed; cbn [negb]; [| done].
    destruct delivered; cbn [negb fst]; [| done].
    unfold close_deleted. case_bool_decide; [| done].
    case_bool_decide; cbn; [done|].
    intros a Ha. apply list_elem_of_filter. split; [congruence | by apply Hact].
Qed.

Lemma tab_handlers_keep_active_tab_witness :
  tabs_ok state_editing
  ∧ tabs_ok (handleCloseFile "/a/x.js" state_editing)
  ∧ tabs_ok (handleDeleteItem (Some "/a/x.js") true true state_editing state_editing).1.1.
Proof.
  assert (tabs_ok state_editing) as Hok.
  { split; [by_computation|]. intros a [= <-]. left. }
  destruct (tab_handlers_keep_active_tab state_editing file_y "/a/x.js"
              (RefetchActive "/a/x.js") (Some "/a/x.js") true true Hok)
    as (_ & _ & Hclose & _ & Hdelete).
  split; [exact Hok|]. split; [exact Hclose | exact Hdelete].
Defined.
